(** * A consistent-hash ring (package [consistent])

    Shallow embedding of [consistent.go] and the properties of its ring.

    - positions are Go [uint32] values, carried as [Z];
    - [count] is a Go [int64], carried as [Z] with its wrap-around;
    - indices into the sorted cache are Go [int] values that stay between
      [0] and the length of the cache: they are carried as [nat];
    - [circle] is a Go map and is a [gmap]; [members] is a Go map used as a
      set and is a [gset];
    - the node type [lineProtocol.WriteCloser] belongs to another package:
      the development is parametric in it (class [WriteCloser]). *)

From Stdlib Require Import ZArith Lia DecimalString DecimalZ DecimalPos.
From Stdlib.Strings Require Import String Ascii Byte.
From Equations Require Import Equations.
From stdpp Require Import gmap strings list fin_maps fin_sets sorting.

Local Open Scope Z_scope.

(** ** Machine integers *)

(** Go [int64] / 64-bit [int] arithmetic wraps around. *)
Definition wrap64 (z : Z) : Z := (z + 2 ^ 63) mod 2 ^ 64 - 2 ^ 63.

(** ** [hash/crc32] of the Go standard library

    [crc32.ChecksumIEEE] is the CRC-32 of the IEEE polynomial, taken here in
    its bit-by-bit form on the reflected polynomial [0xedb88320]. *)
Module crc32.

Definition IEEE : Z := 0xedb88320.

Definition shift1 (crc : Z) : Z :=
    if Z.testbit crc 0 then Z.lxor (Z.shiftr crc 1) IEEE else Z.shiftr crc 1.

Definition update_byte (crc : Z) (b : byte) : Z :=
    let x := Z.lxor crc (Z.of_N (Byte.to_N b)) in
    shift1 (shift1 (shift1 (shift1 (shift1 (shift1 (shift1 (shift1 x))))))).

Definition ChecksumIEEE (data : list byte) : Z :=
    Z.lxor (fold_left update_byte data 0xffffffff) 0xffffffff.

End crc32.

(** ** [strconv.Itoa] of the Go standard library: decimal notation. *)
Module strconv.

Definition Itoa (i : Z) : string := NilZero.string_of_int (Z.to_int i).

End strconv.

(** ** Strings as byte slices *)

(** [[]byte(key)] *)
Definition bytes_of (key : string) : list byte := list_byte_of_string key.

(** The builtin [copy(dst, src)]: overwrites the first
    [min (len dst) (len src)] bytes of [dst]. *)
Definition copy (dst src : list byte) : list byte :=
  take (length dst) src ++ drop (length src) dst.

(** [hashKey], with its scratch buffer for short keys. *)
Definition hashKey (key : string) : Z :=
  let k := bytes_of key in
  if (Z.of_nat (length k) <? 64) then
    let scratch := copy (replicate 64 x00) k in
    crc32.ChecksumIEEE (take (length k) scratch)
  else crc32.ChecksumIEEE k.

(** What [hashKey] is meant to compute: the checksum of the key's bytes. *)
Definition hashKey_direct (key : string) : Z := crc32.ChecksumIEEE (bytes_of key).


(** ** Results of fallible calls *)

Inductive error := ErrEmptyCircle.

(** A call returns a value, returns an error, or panics (index out of range,
    integer division by zero, [make] with a negative capacity). *)
Inductive result (A : Type) :=
| Ok (a : A)
| Err (e : error)
| Panic.
Arguments Ok {A} a.
Arguments Err {A} e.
Arguments Panic {A}.

#[global] Instance result_bind : MBind result := fun A B k r =>
  match r with
  | Ok a => k a
  | Err e => Err e
  | Panic => Panic
  end.

(** Runs [step] over a list, stopping at the first failure. *)
Fixpoint foldM {A S} (step : S -> A -> result S) (l : list A) (s : S) : result S :=
  match l with
  | [] => Ok s
  | x :: l' => s' ← step s x; foldM step l' s'
  end.

(** ** The slice type [uints] and its [sort.Interface] methods

    Indexing a slice panics outside [[0, len)]. *)
Module uints.

Definition Len (x : list Z) : Z := Z.of_nat (length x).

(** [x[i]] *)
Definition index (x : list Z) (i : Z) : result Z :=
  if i <? 0 then Panic
  else match x !! Z.to_nat i with
       | Some v => Ok v
       | None => Panic
       end.

Definition Less (x : list Z) (i j : Z) : result bool :=
  a ← index x i; b ← index x j; Ok (a <? b).

(** [x[i], x[j] = x[j], x[i]]: both reads come before the two writes. *)
Definition Swap (x : list Z) (i j : Z) : result (list Z) :=
  b ← index x j; a ← index x i;
  Ok (<[Z.to_nat j := a]> (<[Z.to_nat i := b]> x)).

End uints.

(** ** [sort.Search] of the Go standard library: binary search for the
    smallest index in [[0, n]] at which [f] holds. *)
Module sort.

Equations Search_loop (f : nat -> bool) (i j : nat) : nat by wf (j - i)%nat lt :=
  Search_loop f i j with decide (i < j)%nat := {
    | left _ =>
        if f ((i + j) / 2)%nat
        then Search_loop f i ((i + j) / 2)%nat
        else Search_loop f ((i + j) / 2 + 1)%nat j
    | right _ => i }.
Next Obligation. intros. pose proof (Nat.div_mod_eq (i + j) 2). pose proof (Nat.mod_upper_bound (i + j) 2). lia. Qed.
Next Obligation. intros. pose proof (Nat.div_mod_eq (i + j) 2). pose proof (Nat.mod_upper_bound (i + j) 2). lia. Qed.

Definition Search (n : nat) (f : nat -> bool) : nat := Search_loop f 0 n.

(** [sort.Sort] on a [uints] slice: ascending order. *)
Definition Sort (x : list Z) : list Z := merge_sort Z.le x.

End sort.


(** ** Node handles

    [lineProtocol.WriteCloser] is an interface of another package. The ring
    compares handles with [==] and calls [Name()] on them; nothing else. *)
Class WriteCloser (node : Type) := {
  node_eq_dec :: EqDecision node;
  node_countable :: Countable node;
  Name : node -> string
}.

(** ** The ring *)

Section Ring.
Context {node : Type} `{WriteCloser node}.

(** The [Consistent] struct. The [scratch] field is never read (the local
    buffer of [hashKey] shadows it) and the lock is not part of the
    sequential behaviour. A [nil] interface value is [None]. *)
Record Consistent := mkConsistent {
  circle : gmap Z node;
  members : gset node;
  sortedHashes : list Z;
  NumberOfReplicas : Z;
  count : Z
}.

Definition New : Consistent :=
  {| circle := ∅; members := ∅; sortedHashes := []; NumberOfReplicas := 20; count := 0 |}.

(** Setting the exported field before the first [Add]. *)
Definition withReplicas (r : Z) (c : Consistent) : Consistent :=
  mkConsistent (circle c) (members c) (sortedHashes c) r (count c).

Definition elementKey (element : node) (index : Z) : string :=
  (strconv.Itoa index ++ Name element)%string.

(** The ring position of replica [index] of [element]. *)
Definition position (element : node) (index : Z) : Z :=
  hashKey (elementKey element index).

(** The indices [0 <= i < NumberOfReplicas] visited by the loops of [add]
    and [remove]; none when the field is zero or negative. *)
Definition replicas (c : Consistent) : list Z := seqZ 0 (NumberOfReplicas c).

(** The keys of [circle] in ascending order: what the [range] loop followed
    by [sort.Sort] leaves in [hashes], whatever order the map is visited in. *)
Definition sortedKeys (m : gmap Z node) : list Z := sort.Sort (map_to_list m).*1.

(** [updateSortedHashes]. The capacity of the old slice only decides whether
    its storage is reused; the division that tests it panics when
    [NumberOfReplicas*4] is zero. *)
Definition updateSortedHashes (c : Consistent) : result Consistent :=
  if wrap64 (NumberOfReplicas c * 4) =? 0 then Panic
  else Ok (mkConsistent (circle c) (members c) (sortedKeys (circle c))
             (NumberOfReplicas c) (count c)).

(** The loop of [add] over the replica indices [idx]. *)
Definition place (element : node) (idx : list Z) (m : gmap Z node) : gmap Z node :=
  foldl (fun m i => <[position element i := element]> m) m idx.

(** The loop of [remove] over the replica indices [idx]. *)
Definition unplace (element : node) (idx : list Z) (m : gmap Z node) : gmap Z node :=
  foldl (fun m i => delete (position element i) m) m idx.

Definition add (c : Consistent) (element : node) : result Consistent :=
  let circle' := place element (replicas c) (circle c) in
  c' ← updateSortedHashes
         (mkConsistent circle' ({[element]} ∪ members c) (sortedHashes c)
            (NumberOfReplicas c) (count c));
  Ok (mkConsistent (circle c') (members c') (sortedHashes c')
        (NumberOfReplicas c') (wrap64 (count c' + 1))).

Definition Add := add.

Definition remove (c : Consistent) (element : node) : result Consistent :=
  let circle' := unplace element (replicas c) (circle c) in
  c' ← updateSortedHashes
         (mkConsistent circle' (members c ∖ {[element]}) (sortedHashes c)
            (NumberOfReplicas c) (count c));
  Ok (mkConsistent (circle c') (members c') (sortedHashes c')
        (NumberOfReplicas c') (wrap64 (count c' - 1))).

Definition Remove := remove.

(** [sliceContainsMember], also the shape of the inner loop of [Set]. *)
Fixpoint sliceContainsMember {A} `{EqDecision A} (set : list A) (member : A) : bool :=
  match set with
  | [] => false
  | m :: set' => if bool_decide (m = member) then true else sliceContainsMember set' member
  end.

(** [Set]. The first loop ranges over [members] while [remove] deletes the
    entry being visited only, so every member of the initial set is visited
    once; [ks] is the order of the visit (the order does not show in the
    result, as proved further down). The second loop follows the slice. *)
Definition Set_remove_loop (elts ks : list node) (c : Consistent) : result Consistent :=
  foldM (fun c k => if sliceContainsMember elts k then Ok c else remove c k) ks c.

Definition Set_add_loop (elts : list node) (c : Consistent) : result Consistent :=
  foldM (fun c v => if bool_decide (v ∈ members c) then Ok c else add c v) elts c.

Definition Set_ (c : Consistent) (elts : list node) : result Consistent :=
  c1 ← Set_remove_loop elts (elements (members c)) c;
  Set_add_loop elts c1.

Definition Members (c : Consistent) : list node := elements (members c).

(** [search]: the index of the first cached position above [key], or 0. *)
Definition search (c : Consistent) (key : Z) : nat :=
  let f := fun x => match sortedHashes c !! x with
                    | Some p => bool_decide (key < p)
                    | None => false
                    end in
  let i := sort.Search (length (sortedHashes c)) f in
  if bool_decide (length (sortedHashes c) ≤ i)%nat then 0%nat else i.

(** [c.circle[c.sortedHashes[i]]]: panics when [i] is out of range, yields
    [nil] for a position that is not in the map. *)
Definition nodeAt (c : Consistent) (i : nat) : result (option node) :=
  match sortedHashes c !! i with
  | Some p => Ok (circle c !! p)
  | None => Panic
  end.

Definition Get (c : Consistent) (name : string) : result (option node) :=
  if bool_decide (size (circle c) = 0%nat) then Err ErrEmptyCircle
  else nodeAt c (search c (hashKey name)).

(** The walk of [GetTwo] after the primary node [a] found at index [start]:
    [for i = start + 1; i != start; i++]. One unit of fuel per iteration;
    [None] when the fuel runs out before the loop ends. *)
Fixpoint getTwo_walk (fuel : nat) (c : Consistent) (a : option node)
    (start i : nat) (b : option node) : option (result (option node)) :=
  match fuel with
  | O => None
  | S fuel' =>
      if bool_decide (i = start) then Some (Ok b)
      else
        let i := if bool_decide (length (sortedHashes c) ≤ i)%nat then 0%nat else i in
        match nodeAt c i with
        | Ok b' =>
            if bool_decide (b' ≠ a) then Some (Ok b')
            else getTwo_walk fuel' c a start (S i) b'
        | _ => Some Panic
        end
  end.

Definition GetTwo (fuel : nat) (c : Consistent) (name : string)
    : option (result (option node * option node)) :=
  if bool_decide (size (circle c) = 0%nat) then Some (Err ErrEmptyCircle)
  else
    let i := search c (hashKey name) in
    match nodeAt c i with
    | Ok a =>
        if count c =? 1 then Some (Ok (a, None))
        else
          match getTwo_walk fuel c a i (S i) None with
          | Some (Ok b) => Some (Ok (a, b))
          | Some _ => Some Panic
          | None => None
          end
    | _ => Some Panic
    end.

(** The walk of [GetN], with the same loop header as [GetTwo]. *)
Fixpoint getN_walk (fuel : nat) (c : Consistent) (n : Z)
    (start i : nat) (res : list (option node)) : option (result (list (option node))) :=
  match fuel with
  | O => None
  | S fuel' =>
      if bool_decide (i = start) then Some (Ok res)
      else
        let i := if bool_decide (length (sortedHashes c) ≤ i)%nat then 0%nat else i in
        match nodeAt c i with
        | Ok elem =>
            let res := if sliceContainsMember res elem then res else res ++ [elem] in
            if bool_decide (Z.of_nat (length res) = n) then Some (Ok res)
            else getN_walk fuel' c n start (S i) res
        | _ => Some Panic
        end
  end.

(** [GetN]; [make] panics on a negative capacity. *)
Definition GetN (fuel : nat) (c : Consistent) (name : string) (n : Z)
    : option (result (list (option node))) :=
  if bool_decide (size (circle c) = 0%nat) then Some (Err ErrEmptyCircle)
  else
    let n := if count c <? n then count c else n in
    let i := search c (hashKey name) in
    if n <? 0 then Some Panic
    else
      match nodeAt c i with
      | Ok elem =>
          let res := [elem] in
          if bool_decide (Z.of_nat (length res) = n) then Some (Ok res)
          else getN_walk fuel c n i (S i) res
      | _ => Some Panic
      end.

(** *** Specification vocabulary *)

(** The sorted position cache reflects the position table: it lists the
    occupied positions, each once, in ascending order. *)
Definition cache_ok (c : Consistent) : Prop :=
  StronglySorted Z.lt (sortedHashes c)
  /\ forall p, p ∈ sortedHashes c <-> is_Some (circle c !! p).

(** [p] is the occupied position that serves hash [h]: the first one
    strictly above [h], or the smallest one when there is none above. *)
Definition serves (m : gmap Z node) (h p : Z) : Prop :=
  is_Some (m !! p)
  /\ ((h < p /\ forall q, is_Some (m !! q) -> h < q -> p <= q)
      \/ ((forall q, is_Some (m !! q) -> q <= h)
          /\ forall q, is_Some (m !! q) -> p <= q)).

(** The same with "greater than or equal to", as the description of [Get]
    words it. *)
Definition serves_ge (m : gmap Z node) (h p : Z) : Prop :=
  is_Some (m !! p)
  /\ ((h <= p /\ forall q, is_Some (m !! q) -> h <= q -> p <= q)
      \/ ((forall q, is_Some (m !! q) -> q < h)
          /\ forall q, is_Some (m !! q) -> p <= q)).

(** The replica positions of [e] under the replica count of [c]. *)
Definition positions (c : Consistent) (e : node) : list Z :=
  position e <$> replicas c.

(** Every entry of the position table is a replica position of a member. *)
Definition owners_ok (c : Consistent) : Prop :=
  forall p x, circle c !! p = Some x -> x ∈ members c /\ p ∈ positions c x.

(** No two registered nodes share a replica position. *)
Definition collision_free (c : Consistent) : Prop :=
  forall x y i j,
    x ∈ members c -> y ∈ members c -> i ∈ replicas c -> j ∈ replicas c ->
    position x i = position y j -> x = y.

(** Every member owns at least one position of the table. *)
Definition members_placed (c : Consistent) : Prop :=
  forall x, x ∈ members c -> exists p, circle c !! p = Some x.

(** [count] is the number of members. *)
Definition count_ok (c : Consistent) : Prop :=
  count c = Z.of_nat (size (members c)).

(** The nodes of the table in the order of the cache: what the walks of
    [GetTwo] and [GetN] read at the indices 0, 1, ... *)
Definition owners (c : Consistent) : list (option node) :=
  (fun p => circle c !! p) <$> sortedHashes c.

(** The body of the loop of [GetN] along a list of table entries: each entry
    not yet in [res] is appended, and the walk stops ([inl]) as soon as [res]
    has [n] entries; [inr] is the state at the end of the list. *)
Fixpoint collect (n : Z) (res xs : list (option node))
    : list (option node) + list (option node) :=
  match xs with
  | [] => inr res
  | x :: xs' =>
      let res := if sliceContainsMember res x then res else res ++ [x] in
      if bool_decide (Z.of_nat (length res) = n) then inl res
      else collect n res xs'
  end.

(** Sequences of mutations, as a caller issues them. *)
Inductive op :=
| OpAdd (element : node)
| OpRemove (element : node)
| OpSet (elts : list node).

Definition apply_op (c : Consistent) (o : op) : result Consistent :=
  match o with
  | OpAdd e => Add c e
  | OpRemove e => Remove c e
  | OpSet l => Set_ c l
  end.

Definition run (c : Consistent) (ops : list op) : result Consistent :=
  foldM apply_op ops c.

(** The ring that a sequence of operations builds from a new one. With the
    default replica count no operation panics, so the second branch is never
    taken ([ring_of_run] below). *)
Definition ring_of (ops : list op) : Consistent :=
  match run New ops with
  | Ok c => c
  | _ => New
  end.

End Ring.

Arguments Consistent node {_}.
Arguments op node : clear implicits.

(** ** A concrete node type, for examples: a connection number and the name
    its [Name()] method reports. Two handles may carry the same name. *)
Module Example_nodes.

Record conn := Conn { conn_id : nat; conn_name : string }.

#[global] Instance conn_eq_dec : EqDecision conn.
Proof. solve_decision. Defined.

#[global] Instance conn_countable : Countable conn :=
  inj_countable' (fun c => (conn_id c, conn_name c)) (fun p => Conn p.1 p.2)
    (fun c => match c with Conn _ _ => eq_refl end).

#[global] Instance conn_WriteCloser : WriteCloser conn := {| Name := conn_name |}.

Definition cacheA := Conn 1 "cacheA".
Definition cacheB := Conn 2 "cacheB".
Definition cacheC := Conn 3 "cacheC".

End Example_nodes.

Import Example_nodes.

(** Rings over the example nodes, with the default replica count. *)
Abbreviation ringA := (ring_of [OpAdd cacheA] : Consistent conn).
Abbreviation ringAB := (ring_of [OpAdd cacheA; OpAdd cacheB] : Consistent conn).
Abbreviation ringABC := (ring_of [OpAdd cacheA; OpAdd cacheB; OpAdd cacheC] : Consistent conn).

(** A second handle that reports the name of [cacheA]. *)
Definition cacheA' : conn := Conn 9 "cacheA".

Abbreviation ringAA := (ring_of [OpAdd cacheA; OpAdd cacheA] : Consistent conn).
Abbreviation ringA_less_twin := (ring_of ([OpAdd cacheA] ++ [OpRemove cacheA']) : Consistent conn).
Abbreviation ringAB_less_C := (ring_of ([OpAdd cacheA; OpAdd cacheB] ++ [OpRemove cacheC]) : Consistent conn).
Abbreviation ringABC_less_B := (ring_of ([OpAdd cacheA; OpAdd cacheB; OpAdd cacheC] ++ [OpRemove cacheB]) : Consistent conn).

(** * Properties *)

(** ** The library models agree with known values *)

Example crc32_check : crc32.ChecksumIEEE (bytes_of "123456789") = 0xcbf43926.
Proof. vm_compute. reflexivity. Qed.

Example itoa_check : strconv.Itoa 19 = "19"%string /\ strconv.Itoa 0 = "0"%string.
Proof. vm_compute. split; reflexivity. Qed.

Example search_check : sort.Search 5 (fun x => 2 <? x)%nat = 3%nat.
Proof. vm_compute. reflexivity. Qed.

(** ** [hashKey] *)

Lemma copy_scratch (dst src : list byte) :
  (length src <= length dst)%nat -> take (length src) (copy dst src) = src.
Proof.
  intros Hle. unfold copy.
  rewrite (take_ge src (length dst)) by lia.
  rewrite take_app_length. reflexivity.
Qed.

(** C10: [hashKey] is the CRC-32 (IEEE) checksum of the bytes of its
    argument; the branch through the 64-byte scratch buffer (keys shorter
    than 64 bytes) and the direct branch compute the same value. *)
Theorem hashKey_is_checksum (key : string) : hashKey key = hashKey_direct key.
Proof.
  unfold hashKey, hashKey_direct.
  destruct (Z.ltb_spec (Z.of_nat (length (bytes_of key))) 64) as [Hlt | Hge].
  - rewrite copy_scratch by (rewrite length_replicate; lia). reflexivity.
  - reflexivity.
Qed.

(** ** Binary search *)

Lemma half_bounds (i j : nat) : (i < j -> i <= (i + j) / 2 < j)%nat.
Proof.
  intros Hlt. pose proof (Nat.div_mod_eq (i + j) 2) as Hd.
  pose proof (Nat.mod_upper_bound (i + j) 2). lia.
Qed.

(** On a predicate that is monotone on [[i, j)], the loop of [sort.Search]
    stops at the boundary between the indices where it fails and those where
    it holds. *)
Lemma Search_loop_spec (f : nat -> bool) (i j : nat) :
  (i <= j)%nat ->
  (forall x y, (i <= x <= y)%nat -> (y < j)%nat -> f x = true -> f y = true) ->
  (i <= sort.Search_loop f i j <= j)%nat
  /\ (forall x, (i <= x < sort.Search_loop f i j)%nat -> f x = false)
  /\ (forall x, (sort.Search_loop f i j <= x < j)%nat -> f x = true).
Proof.
  funelim (sort.Search_loop f i j); intros Hij Hmono.
  - clear Heqcall Heq.
    pose proof (half_bounds i j l) as Hh.
    destruct (f ((i + j) / 2)%nat) eqn:Hf.
    + destruct H as (Hr & Hlo & Hhi); [lia | |].
      { intros x y Hxy Hy. apply Hmono; lia. }
      split; [lia |]. split; [exact Hlo |].
      intros x Hx. destruct (decide (x < (i + j) / 2)%nat) as [Hlt | Hge].
      * apply Hhi. lia.
      * apply (Hmono ((i + j) / 2)%nat x); [lia | lia | exact Hf].
    + destruct H0 as (Hr & Hlo & Hhi); [lia | |].
      { intros x y Hxy Hy. apply Hmono; lia. }
      split; [lia |]. split; [| exact Hhi].
      intros x Hx. destruct (decide ((i + j) / 2 < x)%nat) as [Hlt | Hge].
      * apply Hlo. lia.
      * destruct (f x) eqn:Hfx; [| reflexivity].
        rewrite <- Hf. symmetry.
        apply (Hmono x ((i + j) / 2)%nat); [lia | lia | exact Hfx].
  - split; [lia |]. split; intros x Hx; lia.
Qed.

(** ** Sorted lists of positions *)

Lemma StronglySorted_lookup {A} (R : relation A) (l : list A) (i j : nat) (x y : A) :
  StronglySorted R l -> (i < j)%nat -> l !! i = Some x -> l !! j = Some y -> R x y.
Proof.
  intros Hs. revert i j. induction Hs as [| a l Hs IH Hall]; intros i j Hij Hi Hj.
  - rewrite lookup_nil in Hi. discriminate.
  - destruct j as [| j]; [lia |]. simpl in Hj.
    destruct i as [| i]; simpl in Hi.
    + injection Hi as <-. rewrite Forall_forall in Hall.
      apply Hall. eapply list_elem_of_lookup_2. exact Hj.
    + apply (IH i j); [lia | assumption | assumption].
Qed.

Lemma StronglySorted_le_lt (l : list Z) :
  StronglySorted Z.le l -> NoDup l -> StronglySorted Z.lt l.
Proof.
  induction 1 as [| a l Hs IH Hall]; intros Hnd; [constructor |].
  apply NoDup_cons in Hnd as [Hnotin Hnd].
  constructor; [auto |].
  rewrite Forall_forall in *. intros q Hq.
  specialize (Hall q Hq). assert (a <> q) by (intros ->; contradiction). lia.
Qed.

Lemma StronglySorted_lt_le (l : list Z) :
  StronglySorted Z.lt l -> StronglySorted Z.le l /\ NoDup l.
Proof.
  induction 1 as [| a l Hs [IH1 IH2] Hall].
  - split; constructor.
  - rewrite Forall_forall in Hall. split.
    + constructor; [assumption |]. rewrite Forall_forall.
      intros q Hq. specialize (Hall q Hq). lia.
    + apply NoDup_cons. split; [| assumption].
      intros Hin. specialize (Hall a Hin). lia.
Qed.

(** An ascending list without duplicates is determined by its elements. *)
Lemma ascending_unique (l1 l2 : list Z) :
  StronglySorted Z.lt l1 -> StronglySorted Z.lt l2 ->
  (forall p, p ∈ l1 <-> p ∈ l2) -> l1 = l2.
Proof.
  intros [Hs1 Hn1]%StronglySorted_lt_le [Hs2 Hn2]%StronglySorted_lt_le Hiff.
  apply (StronglySorted_unique Z.le); [assumption | assumption |].
  apply NoDup_Permutation; assumption.
Qed.

Lemma Sort_ascending (l : list Z) : NoDup l -> StronglySorted Z.lt (sort.Sort l).
Proof.
  intros Hnd. apply StronglySorted_le_lt.
  - apply StronglySorted_merge_sort; apply _.
  - unfold sort.Sort. rewrite merge_sort_Permutation. exact Hnd.
Qed.

Lemma elem_of_Sort (l : list Z) (p : Z) : p ∈ sort.Sort l <-> p ∈ l.
Proof. unfold sort.Sort. rewrite merge_sort_Permutation. reflexivity. Qed.

Section Ring_facts.
Context {node : Type} `{WriteCloser node}.
Implicit Types (c : Consistent node) (m : gmap Z node) (p q h : Z) (e : node).

Lemma elem_of_keys m p : p ∈ (map_to_list m).*1 <-> is_Some (m !! p).
Proof.
  rewrite list_elem_of_fmap. split.
  - intros [[k x] [-> Hin]]. apply elem_of_map_to_list in Hin. simpl. eauto.
  - intros [x Hx]. exists (p, x). split; [reflexivity |].
    apply elem_of_map_to_list. exact Hx.
Qed.

Lemma sortedKeys_ascending m : StronglySorted Z.lt (sortedKeys m).
Proof. apply Sort_ascending, NoDup_fst_map_to_list. Qed.

Lemma elem_of_sortedKeys m p : p ∈ sortedKeys m <-> is_Some (m !! p).
Proof. unfold sortedKeys. rewrite elem_of_Sort. apply elem_of_keys. Qed.


Lemma cache_ok_iff c : cache_ok c <-> sortedHashes c = sortedKeys (circle c).
Proof.
  split.
  - intros [Hs Hel]. apply ascending_unique;
      [assumption | apply sortedKeys_ascending |].
    intros p. rewrite Hel, elem_of_sortedKeys. reflexivity.
  - intros Heq. unfold cache_ok. rewrite Heq.
    split; [apply sortedKeys_ascending |].
    intros p. apply elem_of_sortedKeys.
Qed.

Lemma cache_ok_nonempty c : cache_ok c -> circle c <> ∅ -> sortedHashes c <> [].
Proof.
  intros [_ Hel] Hne Hnil. apply Hne. apply map_eq. intros p.
  rewrite lookup_empty. destruct (circle c !! p) eqn:Hp; [| reflexivity].
  assert (p ∈ sortedHashes c) as Hin by (apply Hel; eauto).
  rewrite Hnil in Hin. inversion Hin.
Qed.

(** ** [search] and [Get] *)

Lemma serves_unique m h p q : serves m h p -> serves m h q -> p = q.
Proof.
  intros [Hp [[Hhp Hmin] | [Hall Hmin]]] [Hq [[Hhq Hmin'] | [Hall' Hmin']]].
  - specialize (Hmin q Hq Hhq). specialize (Hmin' p Hp Hhp). lia.
  - specialize (Hall' p Hp). lia.
  - specialize (Hall q Hq). lia.
  - specialize (Hmin q Hq). specialize (Hmin' p Hp). lia.
Qed.

(** On a consistent, non-empty cache [search] lands on the position that
    serves the key. *)
Lemma search_serves c h :
  cache_ok c -> sortedHashes c <> [] ->
  exists p, sortedHashes c !! search c h = Some p /\ serves (circle c) h p.
Proof.
  intros [Hs Hel] Hne. unfold search.
  set (l := sortedHashes c) in *.
  set (f := fun x => match l !! x with
                     | Some p => bool_decide (h < p)
                     | None => false
                     end).
  destruct (Search_loop_spec f 0 (length l)) as (Hr & Hlo & Hhi); [lia | |].
  { intros x y Hxy Hy. unfold f.
    destruct (lookup_lt_is_Some_2 l x) as [px Hpx]; [lia |].
    destruct (lookup_lt_is_Some_2 l y) as [py Hpy]; [lia |].
    rewrite Hpx, Hpy. intros Hfx%bool_decide_eq_true.
    apply bool_decide_eq_true.
    destruct (decide (x = y)) as [-> | Hneq]; [congruence |].
    pose proof (StronglySorted_lookup Z.lt l x y px py Hs) as Hlt.
    specialize (Hlt ltac:(lia) Hpx Hpy). lia. }
  unfold sort.Search. set (r := sort.Search_loop f 0 (length l)) in *.
  assert (forall q, is_Some (circle c !! q) -> exists k, l !! k = Some q) as Hidx.
  { intros q Hq. apply Hel in Hq. apply list_elem_of_lookup_1 in Hq. exact Hq. }
  case_bool_decide as Hcase.
  - (* no position above [h]: wrap to index 0 *)
    destruct l as [| p0 l'] eqn:Hl; [contradiction |].
    exists p0. split; [reflexivity |]. split.
    { apply Hel. rewrite <- Hl. subst l. rewrite Hl. apply list_elem_of_here. }
    right. split.
    + intros q [k Hk]%Hidx.
      assert (f k = false) as Hfk.
      { apply Hlo. apply lookup_lt_Some in Hk. lia. }
      unfold f in Hfk. rewrite Hk in Hfk.
      apply bool_decide_eq_false in Hfk. lia.
    + intros q [k Hk]%Hidx. destruct k as [| k].
      * simpl in Hk. injection Hk as ->. lia.
      * pose proof (StronglySorted_lookup Z.lt (p0 :: l') 0 (S k) p0 q Hs) as Hlt.
        specialize (Hlt ltac:(lia) eq_refl Hk). lia.
  - destruct (lookup_lt_is_Some_2 l r) as [p Hp]; [lia |].
    exists p. split; [exact Hp |]. split.
    { apply Hel. eapply list_elem_of_lookup_2. exact Hp. }
    assert (f r = true) as Hfr by (apply Hhi; lia).
    unfold f in Hfr. rewrite Hp in Hfr. apply bool_decide_eq_true in Hfr.
    left. split; [exact Hfr |].
    intros q [k Hk]%Hidx Hhq.
    destruct (decide (k < r)%nat) as [Hkr | Hkr].
    + assert (f k = false) as Hfk by (apply Hlo; lia).
      unfold f in Hfk. rewrite Hk in Hfk.
      apply bool_decide_eq_false in Hfk. lia.
    + destruct (decide (k = r)) as [-> | Hneq]; [rewrite Hp in Hk; injection Hk; lia |].
      pose proof (StronglySorted_lookup Z.lt l r k p q Hs) as Hlt.
      specialize (Hlt ltac:(lia) Hp Hk). lia.
Qed.

Lemma search_lt c h : sortedHashes c <> [] -> (search c h < length (sortedHashes c))%nat.
Proof.
  intros Hne. unfold search. case_bool_decide; [| lia].
  destruct (sortedHashes c); [contradiction | simpl; lia].
Qed.

Lemma Get_serves c key :
  cache_ok c -> circle c <> ∅ ->
  exists p, serves (circle c) (hashKey key) p /\ Get c key = Ok (circle c !! p).
Proof.
  intros Hok Hne.
  destruct (search_serves c (hashKey key) Hok) as (p & Hp & Hserves).
  { apply cache_ok_nonempty; assumption. }
  exists p. split; [exact Hserves |].
  unfold Get. rewrite bool_decide_eq_false_2 by (by apply map_size_non_empty_iff).
  unfold nodeAt. rewrite Hp. reflexivity.
Qed.

(** ** The mutations, field by field *)

Lemma lookup_place e (idx : list Z) m p :
  place e idx m !! p = if decide (p ∈ position e <$> idx) then Some e else m !! p.
Proof.
  unfold place. revert m. induction idx as [| i idx IH]; intros m.
  - cbn [foldl]. case_decide as Hin; [inversion Hin | reflexivity].
  - cbn [foldl]. rewrite IH, fmap_cons.
    destruct (decide (p ∈ position e <$> idx)) as [Hin | Hnin];
      destruct (decide (p ∈ position e i :: (position e <$> idx))) as [Hin' | Hnin'].
    + reflexivity.
    + exfalso. apply Hnin'. right. exact Hin.
    + apply elem_of_cons in Hin' as [-> | ?]; [| contradiction].
      apply lookup_insert_eq.
    + apply lookup_insert_ne. intros <-. apply Hnin'. left.
Qed.

Lemma lookup_unplace e (idx : list Z) m p :
  unplace e idx m !! p = if decide (p ∈ position e <$> idx) then None else m !! p.
Proof.
  unfold unplace. revert m. induction idx as [| i idx IH]; intros m.
  - cbn [foldl]. case_decide as Hin; [inversion Hin | reflexivity].
  - cbn [foldl]. rewrite IH, fmap_cons.
    destruct (decide (p ∈ position e <$> idx)) as [Hin | Hnin];
      destruct (decide (p ∈ position e i :: (position e <$> idx))) as [Hin' | Hnin'].
    + reflexivity.
    + exfalso. apply Hnin'. right. exact Hin.
    + apply elem_of_cons in Hin' as [-> | ?]; [| contradiction].
      apply lookup_delete_eq.
    + apply lookup_delete_ne. intros <-. apply Hnin'. left.
Qed.

Lemma add_Ok c e c' :
  add c e = Ok c' ->
  circle c' = place e (replicas c) (circle c)
  /\ members c' = {[e]} ∪ members c
  /\ sortedHashes c' = sortedKeys (circle c')
  /\ NumberOfReplicas c' = NumberOfReplicas c
  /\ count c' = wrap64 (count c + 1).
Proof.
  unfold add, updateSortedHashes. simpl.
  destruct (wrap64 (NumberOfReplicas c * 4) =? 0); simpl; [discriminate |].
  intros [= <-]. simpl. auto.
Qed.

Lemma remove_Ok c e c' :
  remove c e = Ok c' ->
  circle c' = unplace e (replicas c) (circle c)
  /\ members c' = members c ∖ {[e]}
  /\ sortedHashes c' = sortedKeys (circle c')
  /\ NumberOfReplicas c' = NumberOfReplicas c
  /\ count c' = wrap64 (count c - 1).
Proof.
  unfold remove, updateSortedHashes. simpl.
  destruct (wrap64 (NumberOfReplicas c * 4) =? 0); simpl; [discriminate |].
  intros [= <-]. simpl. auto.
Qed.

(** The mutations succeed unless the capacity test divides by zero. *)
Lemma add_total c e :
  wrap64 (NumberOfReplicas c * 4) <> 0 -> exists c', add c e = Ok c'.
Proof.
  intros Hr. unfold add, updateSortedHashes. simpl.
  apply Z.eqb_neq in Hr. rewrite Hr. simpl. eauto.
Qed.

Lemma remove_total c e :
  wrap64 (NumberOfReplicas c * 4) <> 0 -> exists c', remove c e = Ok c'.
Proof.
  intros Hr. unfold remove, updateSortedHashes. simpl.
  apply Z.eqb_neq in Hr. rewrite Hr. simpl. eauto.
Qed.

Lemma sliceContainsMember_spec {A} `{EqDecision A} (l : list A) (x : A) :
  sliceContainsMember l x = true <-> x ∈ l.
Proof.
  induction l as [| y l IH]; simpl.
  - split; [discriminate | intros Hin; inversion Hin].
  - case_bool_decide as Hy.
    + subst. split; [intros _; left | reflexivity].
    + rewrite IH. split; [intros ?; by right |].
      intros [? | ?]%elem_of_cons; [congruence | assumption].
Qed.

(** A property kept by [add] and [remove] is kept by [Set] and by every
    sequence of operations. *)
Lemma foldM_preserves {A} (P : Consistent node -> Prop)
    (step : Consistent node -> A -> result (Consistent node)) (l : list A) c c' :
  (forall c x c', P c -> step c x = Ok c' -> P c') ->
  P c -> foldM step l c = Ok c' -> P c'.
Proof.
  intros Hstep. revert c. induction l as [| x l IH]; intros c HP; simpl.
  - intros [= <-]. exact HP.
  - destruct (step c x) as [c1 | |] eqn:Hs; simpl; try discriminate.
    apply IH. eapply Hstep; eassumption.
Qed.

Lemma Set_preserves (P : Consistent node -> Prop) c (l : list node) c' :
  (forall c e c', P c -> add c e = Ok c' -> P c') ->
  (forall c e c', P c -> remove c e = Ok c' -> P c') ->
  P c -> Set_ c l = Ok c' -> P c'.
Proof.
  intros Hadd Hrem HP. unfold Set_, Set_remove_loop, Set_add_loop.
  destruct (foldM _ (elements (members c)) c) as [c1 | |] eqn:H1; simpl;
    try discriminate.
  intros H2.
  eapply foldM_preserves in H1; [| | exact HP].
  - eapply foldM_preserves in H2; [exact H2 | | exact H1].
    intros d x d' Hd. destruct (bool_decide _); [intros [= <-]; exact Hd |].
    apply Hadd. exact Hd.
  - intros d x d' Hd. destruct (sliceContainsMember _ _); [intros [= <-]; exact Hd |].
    apply Hrem. exact Hd.
Qed.

Lemma run_preserves (P : Consistent node -> Prop) c (ops : list (op node)) c' :
  (forall c e c', P c -> add c e = Ok c' -> P c') ->
  (forall c e c', P c -> remove c e = Ok c' -> P c') ->
  P c -> run c ops = Ok c' -> P c'.
Proof.
  intros Hadd Hrem. unfold run. apply foldM_preserves.
  intros d [e | e | l] d' Hd; simpl.
  - apply Hadd. exact Hd.
  - apply Hrem. exact Hd.
  - apply Set_preserves; assumption.
Qed.

Lemma run_total c (ops : list (op node)) :
  wrap64 (NumberOfReplicas c * 4) <> 0 -> exists c', run c ops = Ok c'.
Proof.
  intros Hr.
  assert (forall A (step : Consistent node -> A -> result (Consistent node)) (l : list A) c,
    (forall c x, NumberOfReplicas c = NumberOfReplicas c ->
       wrap64 (NumberOfReplicas c * 4) <> 0 ->
       exists c', step c x = Ok c' /\ NumberOfReplicas c' = NumberOfReplicas c) ->
    wrap64 (NumberOfReplicas c * 4) <> 0 ->
    exists c', foldM step l c = Ok c' /\ NumberOfReplicas c' = NumberOfReplicas c)
    as Hfold.
  { intros A step l. induction l as [| x l IH]; intros d Hstep Hd; simpl.
    - eauto.
    - destruct (Hstep d x eq_refl Hd) as (d1 & -> & Hr1). simpl.
      destruct (IH d1 Hstep) as (d2 & -> & Hr2); [congruence |].
      exists d2. split; congruence. }
  assert (forall c e, wrap64 (NumberOfReplicas c * 4) <> 0 ->
    exists c', add c e = Ok c' /\ NumberOfReplicas c' = NumberOfReplicas c) as Hadd.
  { intros d e Hd. destruct (add_total d e Hd) as [d' Hd'].
    exists d'. split; [assumption |]. apply add_Ok in Hd'. tauto. }
  assert (forall c e, wrap64 (NumberOfReplicas c * 4) <> 0 ->
    exists c', remove c e = Ok c' /\ NumberOfReplicas c' = NumberOfReplicas c) as Hrem.
  { intros d e Hd. destruct (remove_total d e Hd) as [d' Hd'].
    exists d'. split; [assumption |]. apply remove_Ok in Hd'. tauto. }
  destruct (Hfold _ apply_op ops c) as (c' & Hc' & _); [| assumption | eauto].
  intros d [e | e | l] _ Hd; simpl.
  - apply Hadd, Hd.
  - apply Hrem, Hd.
  - unfold Set_, Set_remove_loop, Set_add_loop.
    destruct (Hfold _ (fun c k => if sliceContainsMember l k then Ok c else remove c k)
                (elements (members d)) d) as (d1 & -> & Hr1); [| assumption |].
    { intros d0 x _ Hd0. destruct (sliceContainsMember l x); eauto. }
    simpl.
    destruct (Hfold _ (fun c v => if bool_decide (v ∈ members c) then Ok c else add c v)
                l d1) as (d2 & -> & Hr2); [| congruence |].
    { intros d0 x _ Hd0. destruct (bool_decide _); eauto. }
    exists d2. split; congruence.
Qed.

(** ** The cache after a mutation *)

Lemma add_cache_ok c e c' : add c e = Ok c' -> cache_ok c'.
Proof. intros Hadd%add_Ok. apply cache_ok_iff. tauto. Qed.

Lemma remove_cache_ok c e c' : remove c e = Ok c' -> cache_ok c'.
Proof. intros Hrem%remove_Ok. apply cache_ok_iff. tauto. Qed.

Lemma New_cache_ok r : cache_ok (withReplicas r New).
Proof.
  split; [constructor |]. intros p. simpl. rewrite lookup_empty. split.
  - intros Hin. inversion Hin.
  - intros [x Hx]. discriminate.
Qed.

(** ** Owners of positions are members *)

Lemma positions_eq c c' e :
  NumberOfReplicas c' = NumberOfReplicas c -> positions c' e = positions c e.
Proof. unfold positions, replicas. intros ->. reflexivity. Qed.

Lemma add_owners_ok c e c' : owners_ok c -> add c e = Ok c' -> owners_ok c'.
Proof.
  intros Hown (Hcirc & Hmem & _ & Hrep & _)%add_Ok p x Hpx.
  rewrite Hcirc, lookup_place in Hpx. rewrite Hmem, (positions_eq c c') by exact Hrep.
  case_decide as Hin.
  - injection Hpx as <-. split; [| exact Hin].
    apply elem_of_union_l, elem_of_singleton. reflexivity.
  - destruct (Hown p x Hpx) as [Hx Hp]. split; [| exact Hp].
    apply elem_of_union_r. exact Hx.
Qed.

Lemma remove_owners_ok c e c' : owners_ok c -> remove c e = Ok c' -> owners_ok c'.
Proof.
  intros Hown (Hcirc & Hmem & _ & Hrep & _)%remove_Ok p x Hpx.
  rewrite Hcirc, lookup_unplace in Hpx. rewrite Hmem, (positions_eq c c') by exact Hrep.
  case_decide as Hin; [discriminate |].
  destruct (Hown p x Hpx) as [Hx Hp]. split; [| exact Hp].
  apply elem_of_difference. split; [exact Hx |].
  intros ->%elem_of_singleton. contradiction.
Qed.

Lemma New_owners_ok r : owners_ok (withReplicas r New).
Proof. intros p x Hpx. simpl in Hpx. rewrite lookup_empty in Hpx. discriminate. Qed.

Lemma run_cache_ok r (ops : list (op node)) c :
  run (withReplicas r New) ops = Ok c -> cache_ok c.
Proof.
  apply (run_preserves cache_ok).
  - intros d e d' _. apply add_cache_ok.
  - intros d e d' _. apply remove_cache_ok.
  - apply New_cache_ok.
Qed.

Lemma run_owners_ok r (ops : list (op node)) c :
  run (withReplicas r New) ops = Ok c -> owners_ok c.
Proof.
  apply (run_preserves owners_ok).
  - apply add_owners_ok.
  - apply remove_owners_ok.
  - apply New_owners_ok.
Qed.

(** ** What [Get] depends on *)

Lemma Get_ext c c' key :
  circle c' = circle c -> sortedHashes c' = sortedHashes c -> Get c' key = Get c key.
Proof.
  intros Hc Hs. unfold Get, nodeAt, search. rewrite Hc, Hs. reflexivity.
Qed.

Lemma Get_of_serves c key p :
  cache_ok c -> serves (circle c) (hashKey key) p -> Get c key = Ok (circle c !! p).
Proof.
  intros Hok Hserves.
  assert (circle c <> ∅) as Hne.
  { destruct Hserves as [[x Hx] _]. intros Hempty.
    rewrite Hempty, lookup_empty in Hx. discriminate. }
  destruct (Get_serves c key Hok Hne) as (q & Hq & HGet).
  rewrite (serves_unique _ _ _ _ Hserves Hq). exact HGet.
Qed.

(** Deleting positions other than [p] does not change what [p] serves. *)
Lemma serves_subset m m' h p :
  (forall q, is_Some (m' !! q) -> is_Some (m !! q)) ->
  is_Some (m' !! p) -> serves m h p -> serves m' h p.
Proof.
  intros Hsub Hp [_ Hcases]. split; [exact Hp |].
  destruct Hcases as [[Hlt Hmin] | [Hall Hmin]].
  - left. split; [exact Hlt |]. intros q Hq. apply Hmin, Hsub, Hq.
  - right. split; intros q Hq; [apply Hall | apply Hmin]; apply Hsub, Hq.
Qed.

Lemma unplace_absent e (idx : list Z) m :
  (forall p, p ∈ position e <$> idx -> m !! p = None) -> unplace e idx m = m.
Proof.
  intros Habs. apply map_eq. intros p. rewrite lookup_unplace.
  case_decide as Hin; [symmetry; apply Habs, Hin | reflexivity].
Qed.

(** ** Checking collision-freedom by computation *)

Lemma NoDup_bind_inj {A B} (f : A -> list B) (l : list A) (x y : A) (b : B) :
  NoDup (l ≫= f) -> x ∈ l -> y ∈ l -> b ∈ f x -> b ∈ f y -> x = y.
Proof.
  induction l as [| a l IH]; intros Hnd Hx Hy Hbx Hby; [inversion Hx |].
  rewrite bind_cons in Hnd. apply NoDup_app in Hnd as (_ & Hdisj & Hnd).
  apply elem_of_cons in Hx as [-> | Hx]; apply elem_of_cons in Hy as [-> | Hy].
  - reflexivity.
  - exfalso. apply (Hdisj b Hbx). apply list_elem_of_bind. eauto.
  - exfalso. apply (Hdisj b Hby). apply list_elem_of_bind. eauto.
  - apply IH; assumption.
Qed.

Lemma collision_free_check c :
  NoDup (elements (members c) ≫= positions c) -> collision_free c.
Proof.
  intros Hnd x y i j Hx Hy Hi Hj Heq.
  apply (NoDup_bind_inj (positions c) (elements (members c)) x y (position x i) Hnd).
  - apply elem_of_elements, Hx.
  - apply elem_of_elements, Hy.
  - apply list_elem_of_fmap. eauto.
  - rewrite Heq. apply list_elem_of_fmap. eauto.
Qed.

(** ** Rings built by a sequence of operations *)

Lemma foldM_app {A} (step : Consistent node -> A -> result (Consistent node))
    (l1 l2 : list A) c :
  foldM step (l1 ++ l2) c = (c1 ← foldM step l1 c; foldM step l2 c1).
Proof.
  revert c. induction l1 as [| x l1 IH]; intros c; simpl; [reflexivity |].
  destruct (step c x); simpl; [apply IH | reflexivity | reflexivity].
Qed.

Lemma ring_of_run (ops : list (op node)) : run New ops = Ok (ring_of ops).
Proof.
  unfold ring_of.
  destruct (run_total New ops) as [c ->]; [vm_compute; discriminate | reflexivity].
Qed.

Lemma ring_of_snoc (ops : list (op node)) (o : op node) :
  apply_op (ring_of ops) o = Ok (ring_of (ops ++ [o])).
Proof.
  rewrite <- (ring_of_run (ops ++ [o])). unfold run.
  rewrite foldM_app. fold (run New ops). rewrite ring_of_run. simpl.
  destruct (apply_op (ring_of ops) o); reflexivity.
Qed.

Lemma ring_of_cache_ok (ops : list (op node)) : cache_ok (ring_of ops).
Proof. apply (run_cache_ok 20 ops). apply ring_of_run. Qed.

Lemma ring_of_owners_ok (ops : list (op node)) : owners_ok (ring_of ops).
Proof. apply (run_owners_ok 20 ops). apply ring_of_run. Qed.

Lemma ring_of_Add (ops : list (op node)) e :
  Add (ring_of ops) e = Ok (ring_of (ops ++ [OpAdd e])).
Proof. exact (ring_of_snoc ops (OpAdd e)). Qed.

Lemma ring_of_Remove (ops : list (op node)) e :
  Remove (ring_of ops) e = Ok (ring_of (ops ++ [OpRemove e])).
Proof. exact (ring_of_snoc ops (OpRemove e)). Qed.

Lemma ring_of_Set (ops : list (op node)) (l : list node) :
  Set_ (ring_of ops) l = Ok (ring_of (ops ++ [OpSet l])).
Proof. exact (ring_of_snoc ops (OpSet l)). Qed.

(** ** The two loops of [Set] *)

Lemma Set_remove_loop_spec (elts ks : list node) c c1 :
  Set_remove_loop elts ks c = Ok c1 ->
  NumberOfReplicas c1 = NumberOfReplicas c
  /\ (forall x, x ∈ members c1 <-> x ∈ members c /\ ~ (x ∈ ks /\ (x ∉ elts)))
  /\ (forall p x, circle c1 !! p = Some x <->
        circle c !! p = Some x
        /\ ~ exists k, k ∈ ks /\ (k ∉ elts) /\ p ∈ positions c k).
Proof.
  unfold Set_remove_loop. revert c.
  induction ks as [| k ks IH]; intros c; simpl.
  - intros [= <-]. split; [reflexivity |]. split.
    + intros x. split; [intros Hx; split; [exact Hx |] | tauto].
      intros [Hin _]. inversion Hin.
    + intros p x. split; [intros Hx; split; [exact Hx |] | tauto].
      intros (k & Hin & _). inversion Hin.
  - destruct (sliceContainsMember elts k) eqn:Hk; simpl.
    + apply sliceContainsMember_spec in Hk.
      intros (Hrep & Hmem & Hcirc)%IH. split; [exact Hrep |]. split.
      * intros x. rewrite Hmem. split; intros [Hx Hn]; (split; [exact Hx |]).
        -- intros [[-> | Hin]%elem_of_cons Hnot]; [contradiction | tauto].
        -- intros [Hin Hnot]. apply Hn. split; [right; exact Hin | exact Hnot].
      * intros p x. rewrite Hcirc. split; intros [Hx Hn]; (split; [exact Hx |]).
        -- intros (k' & [-> | Hin]%elem_of_cons & Hnot & Hp); [contradiction |].
           apply Hn. eauto.
        -- intros (k' & Hin & Hnot & Hp). apply Hn. exists k'.
           split; [right; exact Hin | tauto].
    + assert (k ∉ elts) as Hk'.
      { intros Hin%sliceContainsMember_spec. congruence. }
      destruct (remove c k) as [c0 | |] eqn:Hrem; simpl; try discriminate.
      apply remove_Ok in Hrem as (Hcirc0 & Hmem0 & _ & Hrep0 & _).
      intros (Hrep & Hmem & Hcirc)%IH. split; [congruence |]. split.
      * intros x. rewrite Hmem, Hmem0, elem_of_difference, elem_of_singleton.
        split.
        -- intros [[Hx Hne] Hn]. split; [exact Hx |].
           intros [[-> | Hin]%elem_of_cons Hnot]; [congruence | tauto].
        -- intros [Hx Hn]. split; [split; [exact Hx |] |].
           ++ intros ->. apply Hn. split; [left | exact Hk'].
           ++ intros [Hin Hnot]. apply Hn. split; [right; exact Hin | exact Hnot].
      * intros p x. rewrite Hcirc, Hcirc0, lookup_unplace.
        setoid_rewrite (positions_eq c c0) at 1; [| exact Hrep0].
        fold (positions c k). split.
        -- intros [Hx Hn]. case_decide as Hpk; [discriminate |].
           split; [exact Hx |].
           intros (k' & [-> | Hin]%elem_of_cons & Hnot & Hp); [contradiction |].
           apply Hn. eauto.
        -- intros [Hx Hn]. case_decide as Hpk.
           ++ exfalso. apply Hn. exists k. split; [left | tauto].
           ++ split; [exact Hx |]. intros (k' & Hin & Hnot & Hp).
              apply Hn. exists k'. split; [right; exact Hin | tauto].
Qed.

Lemma Set_add_loop_spec (l : list node) c1 c2 :
  Set_add_loop l c1 = Ok c2 ->
  NumberOfReplicas c2 = NumberOfReplicas c1
  /\ (forall x, x ∈ members c2 <-> x ∈ members c1 \/ x ∈ l)
  /\ (forall p x, circle c2 !! p = Some x ->
        circle c1 !! p = Some x
        \/ (x ∈ l /\ (x ∉ members c1) /\ p ∈ positions c1 x))
  /\ (forall p, is_Some (circle c1 !! p) -> is_Some (circle c2 !! p))
  /\ (forall p, (forall w, w ∈ l -> w ∉ members c1 -> p ∉ positions c1 w) ->
        circle c2 !! p = circle c1 !! p).
Proof.
  unfold Set_add_loop. revert c1.
  induction l as [| v l IH]; intros c1; simpl.
  - intros [= <-]. split; [reflexivity |]. split; [| split; [| split]]; auto.
    intros x. split; [auto |]. intros [Hx | Hin]; [exact Hx | inversion Hin].
  - case_bool_decide as Hv; simpl.
    + intros (Hrep & Hmem & Hown & Hmono & Hkeep)%IH.
      split; [exact Hrep |]. split; [| split; [| split; [exact Hmono |]]].
      * intros x. rewrite Hmem. split; [intros [? | ?]; [left | right; right]; assumption |].
        intros [Hx | [-> | Hin]%elem_of_cons]; auto.
      * intros p x Hpx. destruct (Hown p x Hpx) as [? | (Hin & Hn & Hp)]; [left; assumption |].
        right. split; [right; exact Hin | tauto].
      * intros p Hp. apply Hkeep. intros w Hw. apply Hp. right. exact Hw.
    + destruct (add c1 v) as [c0 | |] eqn:Hadd; simpl; try discriminate.
      apply add_Ok in Hadd as (Hcirc0 & Hmem0 & _ & Hrep0 & _).
      intros (Hrep & Hmem & Hown & Hmono & Hkeep)%IH.
      assert (forall e, positions c0 e = positions c1 e) as Hpos
        by (intros e; apply positions_eq; exact Hrep0).
      split; [congruence |]. split; [| split; [| split]].
      * intros x. rewrite Hmem, Hmem0, elem_of_union, elem_of_singleton, elem_of_cons.
        tauto.
      * intros p x Hpx. destruct (Hown p x Hpx) as [Hx | (Hin & Hn & Hp)].
        -- rewrite Hcirc0, lookup_place in Hx. fold (positions c1 v) in Hx.
           case_decide as Hpv; [| left; exact Hx].
           injection Hx as <-. right. split; [left | tauto].
        -- right. rewrite Hpos in Hp. split; [right; exact Hin |].
           split; [| exact Hp]. intros Hx. apply Hn. rewrite Hmem0.
           apply elem_of_union_r. exact Hx.
      * intros p Hp. apply Hmono. rewrite Hcirc0, lookup_place.
        case_decide; [eauto | exact Hp].
      * intros p Hp. rewrite Hkeep.
        -- rewrite Hcirc0, lookup_place. fold (positions c1 v).
           rewrite decide_False; [reflexivity |]. apply Hp; [left | exact Hv].
        -- intros w Hw Hn. rewrite Hpos. apply Hp; [right; exact Hw |].
           intros Hx. apply Hn. rewrite Hmem0. apply elem_of_union_r. exact Hx.
Qed.


(** ** The walk of [GetTwo] *)

Lemma nodeAt_lt c (j : nat) :
  (j < length (sortedHashes c))%nat ->
  exists p, sortedHashes c !! j = Some p /\ nodeAt c j = Ok (circle c !! p).
Proof.
  intros Hj. destruct (lookup_lt_is_Some_2 (sortedHashes c) j Hj) as [p Hp].
  exists p. unfold nodeAt. rewrite Hp. auto.
Qed.

(** More fuel does not change a result. *)
Lemma getTwo_walk_mono (fuel fuel' : nat) c a (start i : nat) b r :
  (fuel <= fuel')%nat ->
  getTwo_walk fuel c a start i b = Some r ->
  getTwo_walk fuel' c a start i b = Some r.
Proof.
  revert fuel' i b. induction fuel as [| fuel IH]; intros fuel' i b Hle; simpl;
    [discriminate |].
  destruct fuel' as [| fuel']; [lia |]. simpl.
  case_bool_decide; [auto |].
  destruct (nodeAt c _) as [b' | |]; auto.
  case_bool_decide; [auto |]. apply IH. lia.
Qed.

(** Walking up from [i] to an index [j0] whose node differs from [a],
    without passing [start]: the walk stops at the first such node. *)
Lemma getTwo_walk_up c a (start : nat) (d i j0 : nat) b0 :
  (i + d = j0)%nat -> (j0 < length (sortedHashes c))%nat ->
  (start < i \/ j0 < start)%nat ->
  (exists b, nodeAt c j0 = Ok b /\ b <> a) ->
  exists b j, (i <= j <= j0)%nat /\ nodeAt c j = Ok b /\ b <> a
    /\ (forall k, (i <= k < j)%nat -> nodeAt c k = Ok a)
    /\ getTwo_walk (S d) c a start i b0 = Some (Ok b).
Proof.
  revert i b0. induction d as [| d IH]; intros i b0 Hd Hlen Hside (m & Hm & Hma).
  - assert (i = j0) as -> by lia. exists m, j0. split; [lia |].
    split; [exact Hm |]. split; [exact Hma |]. split; [intros k Hk; lia |].
    simpl. rewrite bool_decide_eq_false_2 by lia.
    rewrite (bool_decide_eq_false_2 (_ <= _)%nat) by lia.
    rewrite Hm. rewrite bool_decide_eq_true_2 by exact Hma. reflexivity.
  - destruct (nodeAt_lt c i) as (p & _ & Hi); [lia |].
    destruct (decide (circle c !! p = a)) as [Heq | Hne].
    + destruct (IH (S i) (circle c !! p)) as (b & j & Hj & Hb & Hba & Hbefore & Hwalk);
        [lia | lia | lia | eauto |].
      exists b, j. split; [lia |]. split; [exact Hb |]. split; [exact Hba |]. split.
      * intros k Hk. destruct (decide (k = i)) as [-> | Hki]; [congruence |].
        apply Hbefore. lia.
      * cbn [getTwo_walk]. rewrite bool_decide_eq_false_2 by lia.
        rewrite (bool_decide_eq_false_2 (_ <= _)%nat) by lia.
        rewrite Hi. rewrite bool_decide_eq_false_2 by (intros Hn; apply Hn, Heq).
        exact Hwalk.
    + exists (circle c !! p), i. split; [lia |]. split; [exact Hi |].
      split; [exact Hne |]. split; [intros k Hk; lia |].
      cbn [getTwo_walk]. rewrite bool_decide_eq_false_2 by lia.
      rewrite (bool_decide_eq_false_2 (_ <= _)%nat) by lia.
      rewrite Hi. rewrite bool_decide_eq_true_2 by exact Hne. reflexivity.
Qed.

(** Walking from [i] to the end of the cache over nodes equal to [a], then
    wrapping to index 0 and on to [j0 < start]. *)
Lemma getTwo_walk_wrap c a (start : nat) (d i j0 : nat) b0 :
  (i + d = length (sortedHashes c))%nat -> (start < i)%nat ->
  (j0 < start)%nat -> (start < length (sortedHashes c))%nat ->
  (forall k, (i <= k < length (sortedHashes c))%nat -> nodeAt c k = Ok a) ->
  (exists b, nodeAt c j0 = Ok b /\ b <> a) ->
  exists b j, (j <= j0)%nat /\ nodeAt c j = Ok b /\ b <> a
    /\ (forall k, (k < j)%nat -> nodeAt c k = Ok a)
    /\ getTwo_walk (S (d + S j0)) c a start i b0 = Some (Ok b).
Proof.
  revert i b0. induction d as [| d IH]; intros i b0 Hd Hi Hj0 Hstart Hall Hfound.
  - destruct (nodeAt_lt c 0) as (p & _ & H0); [lia |].
    cbn [getTwo_walk]. rewrite bool_decide_eq_false_2 by lia.
    rewrite (bool_decide_eq_true_2 (_ <= _)%nat) by lia. rewrite H0.
    destruct (decide (circle c !! p = a)) as [Heq | Hne].
    + rewrite bool_decide_eq_false_2 by (intros Hn; apply Hn, Heq).
      destruct j0 as [| j0].
      { destruct Hfound as (m & Hm & Hma). congruence. }
      destruct (getTwo_walk_up c a start j0 1 (S j0) (circle c !! p))
        as (b & j & Hj & Hb & Hba & Hbefore & Hwalk); [lia | lia | lia | exact Hfound |].
      exists b, j. split; [lia |]. split; [exact Hb |]. split; [exact Hba |]. split.
      * intros k Hk. destruct k as [| k]; [congruence | apply Hbefore; lia].
      * simpl Nat.add. eapply getTwo_walk_mono; [| exact Hwalk]. lia.
    + rewrite bool_decide_eq_true_2 by exact Hne.
      exists (circle c !! p), 0%nat. split; [lia |]. split; [exact H0 |].
      split; [exact Hne |]. split; [intros k Hk; lia | reflexivity].
  - destruct (IH (S i) a) as (b & j & Hj & Hb & Hba & Hbefore & Hwalk);
      [lia | lia | lia | lia | intros k Hk; apply Hall; lia | exact Hfound |].
    exists b, j. split; [exact Hj |]. split; [exact Hb |]. split; [exact Hba |].
    split; [exact Hbefore |].
    change (S (S d + S j0)) with (S (S (d + S j0))).
    cbn [getTwo_walk]. rewrite bool_decide_eq_false_2 by lia.
    rewrite (bool_decide_eq_false_2 (_ <= _)%nat) by lia.
    rewrite (Hall i) by lia.
    rewrite bool_decide_eq_false_2 by (intros Hn; apply Hn; reflexivity).
    exact Hwalk.
Qed.

Lemma tail_all_or_some c a (d i : nat) :
  (i + d = length (sortedHashes c))%nat ->
  (forall k, (i <= k < length (sortedHashes c))%nat -> nodeAt c k = Ok a)
  \/ (exists k b, (i <= k < length (sortedHashes c))%nat /\ nodeAt c k = Ok b /\ b <> a).
Proof.
  revert i. induction d as [| d IH]; intros i Hd; [left; intros k Hk; lia |].
  destruct (nodeAt_lt c i) as (p & _ & Hi); [lia |].
  destruct (decide (circle c !! p = a)) as [Heq | Hne].
  - destruct (IH (S i)) as [Hall | (k & b & Hk & Hb & Hba)]; [lia | |].
    + left. intros k Hk. destruct (decide (k = i)) as [-> | Hki]; [congruence |].
      apply Hall. lia.
    + right. exists k, b. split; [lia | auto].
  - right. exists i, (circle c !! p). split; [lia | auto].
Qed.



Lemma members_placed_check c :
  Forall (fun x => x ∈ (map_to_list (circle c)).*2) (elements (members c)) ->
  members_placed c.
Proof.
  rewrite Forall_forall. intros Hall x Hx%elem_of_elements.
  apply Hall in Hx. apply list_elem_of_fmap in Hx as ([p y] & -> & Hin).
  exists p. apply elem_of_map_to_list. exact Hin.
Qed.

(** ** The walk of [GetN] *)

(** From index 0 the loop header [i != start] never holds again after the
    wrap, so the walk only ends through its [break]; with [n = 0] the length
    of [res], which is at least 1, never equals [n]. *)
Lemma getN_walk_zero_diverges c (fuel i : nat) (res : list (option node)) :
  sortedHashes c <> [] -> i <> 0%nat -> res <> [] ->
  getN_walk fuel c 0 0 i res = None.
Proof.
  intros Hnil. revert i res. induction fuel as [| fuel IH]; intros i res Hi Hres;
    [reflexivity |].
  assert (0 < length (sortedHashes c))%nat as Hlen
    by (destruct (sortedHashes c); [contradiction | simpl; lia]).
  cbn [getN_walk]. rewrite bool_decide_eq_false_2 by exact Hi.
  set (i' := if bool_decide (length (sortedHashes c) <= i)%nat then 0%nat else i).
  destruct (nodeAt_lt c i') as (p & _ & ->).
  { unfold i'. case_bool_decide; lia. }
  set (res' := if sliceContainsMember res (circle c !! p) then res
               else res ++ [circle c !! p]).
  assert (res' <> []) as Hres'.
  { unfold res'. destruct (sliceContainsMember _ _); [exact Hres |].
    destruct res; discriminate. }
  rewrite bool_decide_eq_false_2.
  - apply IH; [lia | exact Hres'].
  - destruct res'; [contradiction | simpl; lia].
Qed.

Lemma GetN_zero_diverges c (key : string) :
  cache_ok c -> circle c <> ∅ -> 0 <= count c ->
  search c (hashKey key) = 0%nat ->
  forall fuel, GetN fuel c key 0 = None.
Proof.
  intros Hok Hne Hcount Hstart fuel.
  pose proof (cache_ok_nonempty c Hok Hne) as Hnil.
  unfold GetN. rewrite bool_decide_eq_false_2 by (by apply map_size_non_empty_iff).
  rewrite (proj2 (Z.ltb_ge (count c) 0)) by lia. rewrite Hstart.
  change (0 <? 0) with false. cbv iota.
  destruct (nodeAt_lt c 0) as (p & _ & ->).
  { destruct (sortedHashes c); [contradiction | simpl; lia]. }
  rewrite bool_decide_eq_false_2 by (simpl; lia).
  apply getN_walk_zero_diverges; [exact Hnil | lia | discriminate].
Qed.

End Ring_facts.

Section Get_claims.
Context {node : Type} `{WriteCloser node}.
Implicit Types (c : Consistent node).

(** C1 (amended): on a non-empty ring whose cache reflects the position
    table, [Get key] returns the node stored at the first position strictly
    greater than [hash key], and the node at the smallest position when
    [hash key] is greater than or equal to every position. A key whose hash
    equals an occupied position is served by the position after it. *)
Theorem Get_first_above c (key : string) :
  cache_ok c -> circle c <> ∅ ->
  exists p x,
    serves (circle c) (hashKey key) p
    /\ circle c !! p = Some x
    /\ Get c key = Ok (Some x).
Proof.
  intros Hok Hne.
  destruct (Get_serves c key Hok Hne) as (p & Hserves & HGet).
  pose proof Hserves as [[x Hx] _].
  exists p, x. rewrite HGet, Hx. auto.
Qed.

End Get_claims.




Section Mutation_claims.
Context {node : Type} `{WriteCloser node}.
Implicit Types (c : Consistent node).

(** C9: after every sequence of [Add], [Remove] and [Set] on a new ring
    (whatever replica count it was given), the sorted position cache lists
    exactly the keys of the position table, in ascending order and without
    duplicates; and the sequence runs to its end unless the replica count
    makes the capacity test of the rebuild divide by zero. *)
Theorem cache_reflects_table (r : Z) (ops : list (op node)) :
  (wrap64 (r * 4) <> 0 -> exists c, run (withReplicas r New) ops = Ok c)
  /\ (forall c, run (withReplicas r New) ops = Ok c ->
        StronglySorted Z.lt (sortedHashes c)
        /\ NoDup (sortedHashes c)
        /\ forall p, p ∈ sortedHashes c <-> is_Some (circle c !! p)).
Proof.
  split.
  - intros Hr. apply run_total. exact Hr.
  - intros c [Hs Hel]%run_cache_ok. split; [exact Hs |]. split; [| exact Hel].
    apply StronglySorted_lt_le in Hs. tauto.
Qed.

(** C4: the queries fail with [ErrEmptyCircle] exactly when the position
    table is empty; and on every ring reached from a new one whose position
    table is not empty, [Get] succeeds with a node of the membership set. *)
Theorem queries_fail_iff_empty :
  (forall c key, Get c key = Err ErrEmptyCircle <-> circle c = ∅)
  /\ (forall fuel c key, GetTwo fuel c key = Some (Err ErrEmptyCircle) <-> circle c = ∅)
  /\ (forall fuel c key n, GetN fuel c key n = Some (Err ErrEmptyCircle) <-> circle c = ∅)
  /\ (forall r (ops : list (op node)) c key,
        run (withReplicas r New) ops = Ok c -> circle c <> ∅ ->
        exists x, Get c key = Ok (Some x) /\ x ∈ members c).
Proof.
  split; [| split; [| split]].
  - intros c key. unfold Get, nodeAt. rewrite <- map_size_empty_iff.
    case_bool_decide; [tauto |].
    split; [| contradiction].
    destruct (sortedHashes c !! _); discriminate.
  - intros fuel c key. unfold GetTwo, nodeAt. rewrite <- map_size_empty_iff.
    case_bool_decide; [tauto |].
    split; [| contradiction].
    destruct (sortedHashes c !! _); [| discriminate].
    destruct (count c =? 1); [discriminate |].
    destruct (getTwo_walk _ _ _ _ _ _) as [[| |] |]; discriminate.
  - intros fuel c key n. unfold GetN. rewrite <- map_size_empty_iff.
    case_bool_decide; [tauto |].
    split; [| contradiction].
    destruct (_ <? 0); [discriminate |].
    destruct (nodeAt _ _); try discriminate.
    case_bool_decide; [discriminate |].
    intros Hwalk. exfalso. revert Hwalk.
    generalize (S (search c (hashKey key))) at 1.
    generalize [a]. generalize (search c (hashKey key)).
    induction fuel as [| fuel IH]; intros start res i; simpl; [discriminate |].
    case_bool_decide; [discriminate |].
    destruct (nodeAt _ _); try discriminate.
    case_bool_decide; [discriminate |]. apply IH.
  - intros r ops c key Hrun Hne.
    destruct (Get_serves c key) as (p & [[x Hpx] _] & HGet);
      [eapply run_cache_ok; eassumption | assumption |].
    exists x. split; [rewrite HGet, Hpx; reflexivity |].
    eapply run_owners_ok in Hrun. apply (Hrun p x Hpx).
Qed.

End Mutation_claims.



Section Remove_claims.
Context {node : Type} `{WriteCloser node}.
Implicit Types (c : Consistent node).

(** C3 (amended): when [Remove] is called with a handle that is not in the
    membership set and none of whose replica positions is in the position
    table, on a ring whose cache reflects the table, the position table, the
    membership set and the sorted cache are unchanged, and so is the result
    of every [Get]. *)
Theorem Remove_absent_unchanged c (e : node) c' :
  cache_ok c ->
  e ∉ members c ->
  (forall p, p ∈ positions c e -> circle c !! p = None) ->
  Remove c e = Ok c' ->
  circle c' = circle c
  /\ members c' = members c
  /\ sortedHashes c' = sortedHashes c
  /\ NumberOfReplicas c' = NumberOfReplicas c
  /\ forall key, Get c' key = Get c key.
Proof.
  intros Hok Hnotin Habs (Hcirc & Hmem & Hsort & Hrep & _)%remove_Ok.
  assert (circle c' = circle c) as Hcirc'.
  { rewrite Hcirc. apply unplace_absent. exact Habs. }
  assert (sortedHashes c' = sortedHashes c) as Hsort'.
  { rewrite Hsort, Hcirc'. symmetry. apply cache_ok_iff. exact Hok. }
  split; [exact Hcirc' |]. split; [| split; [exact Hsort' | split; [exact Hrep |]]].
  - rewrite Hmem. apply set_eq. intros x.
    rewrite elem_of_difference, elem_of_singleton. split; [tauto |].
    intros Hx. split; [exact Hx |]. intros ->. contradiction.
  - intros key. apply Get_ext; assumption.
Qed.

(** C8: on a ring whose cache reflects the table, whose entries all belong
    to members and whose members have pairwise distinct replica positions,
    removing a member [B] leaves every key that [Get] mapped to a node
    [A <> B] mapped to the same [A], which is still a member: only keys that
    were mapped to [B] are remapped. *)
Theorem Remove_remaps_only_removed c (A B : node) c' (key : string) :
  cache_ok c -> owners_ok c -> collision_free c ->
  B ∈ members c ->
  Get c key = Ok (Some A) -> A <> B ->
  Remove c B = Ok c' ->
  Get c' key = Ok (Some A) /\ A ∈ members c' /\ B ∉ members c'.
Proof.
  intros Hok Hown Hfree HB HGet HAB Hrem.
  pose proof (remove_cache_ok _ _ _ Hrem) as Hok'.
  apply remove_Ok in Hrem as (Hcirc & Hmem & _ & _ & _).
  assert (circle c <> ∅) as Hne.
  { intros Hempty. unfold Get in HGet.
    rewrite bool_decide_eq_true_2 in HGet by (by apply map_size_empty_iff).
    discriminate. }
  destruct (Get_serves c key Hok Hne) as (p & Hserves & HGet').
  rewrite HGet in HGet'. injection HGet' as HpA. symmetry in HpA.
  destruct (Hown p A HpA) as [HA HpA'].
  assert (p ∉ positions c B) as HpB.
  { intros HpB. apply HAB.
    apply list_elem_of_fmap in HpA' as (i & -> & Hi).
    apply list_elem_of_fmap in HpB as (j & Hij & Hj).
    exact (Hfree A B i j HA HB Hi Hj Hij). }
  assert (circle c' !! p = Some A) as HpA2.
  { rewrite Hcirc, lookup_unplace. rewrite decide_False by exact HpB. exact HpA. }
  split; [| split].
  - rewrite (Get_of_serves c' key p Hok'); [rewrite HpA2; reflexivity |].
    apply (serves_subset (circle c)); [| eauto | exact Hserves].
    intros q. rewrite Hcirc, lookup_unplace. case_decide; [intros [? ?]; discriminate | auto].
  - rewrite Hmem. apply elem_of_difference. split; [exact HA |].
    intros ->%elem_of_singleton. contradiction.
  - rewrite Hmem. intros [_ Hn]%elem_of_difference. apply Hn, elem_of_singleton. reflexivity.
Qed.

End Remove_claims.

Section Set_claims.
Context {node : Type} `{WriteCloser node}.
Implicit Types (c : Consistent node).


End Set_claims.


Section GetTwo_claims.
Context {node : Type} `{WriteCloser node}.
Implicit Types (c : Consistent node).


End GetTwo_claims.


(** * Further properties of the ring *)

(** ** [int64] arithmetic on [count] *)

Lemma wrap64_id (z : Z) : - 2 ^ 63 <= z < 2 ^ 63 -> wrap64 z = z.
Proof. intros Hz. unfold wrap64. rewrite Z.mod_small; lia. Qed.

Lemma wrap64_add_l (a b : Z) : wrap64 (wrap64 a + b) = wrap64 (a + b).
Proof.
  unfold wrap64. f_equal.
  replace ((a + 2 ^ 63) mod 2 ^ 64 - 2 ^ 63 + b + 2 ^ 63)
    with ((a + 2 ^ 63) mod 2 ^ 64 + b) by lia.
  rewrite Z.add_mod_idemp_l by lia. f_equal. lia.
Qed.

Section Ring_laws.
Context {node : Type} `{WriteCloser node}.
Implicit Types (c : Consistent node) (e : node).

Lemma Consistent_eq c c' :
  circle c' = circle c -> members c' = members c ->
  sortedHashes c' = sortedHashes c ->
  NumberOfReplicas c' = NumberOfReplicas c -> count c' = count c -> c' = c.
Proof. destruct c, c'; simpl; intros; subst; reflexivity. Qed.

Lemma unplace_place_absent e (idx : list Z) (m : gmap Z node) :
  (forall p, p ∈ position e <$> idx -> m !! p = None) ->
  unplace e idx (place e idx m) = m.
Proof.
  intros Habs. apply map_eq. intros p. rewrite lookup_unplace.
  case_decide as Hin; [symmetry; apply Habs, Hin |].
  rewrite lookup_place. rewrite decide_False by exact Hin. reflexivity.
Qed.

Lemma place_owned e (idx : list Z) (m : gmap Z node) :
  (forall p, p ∈ position e <$> idx -> m !! p = Some e) -> place e idx m = m.
Proof.
  intros Hown. apply map_eq. intros p. rewrite lookup_place.
  case_decide as Hin; [symmetry; apply Hown, Hin | reflexivity].
Qed.

(** X1: Adding a handle that shares nothing with the ring and removing it again
    gives back the very same ring state, [count] included. *)
Theorem Add_Remove_roundtrip c e c1 c2 :
  cache_ok c ->
  e ∉ members c ->
  (forall p, p ∈ positions c e -> circle c !! p = None) ->
  - 2 ^ 63 <= count c < 2 ^ 63 ->
  Add c e = Ok c1 -> Remove c1 e = Ok c2 ->
  c2 = c.
Proof.
  intros Hok Hnotin Habs Hcount (Hc1 & Hm1 & _ & Hr1 & Hn1)%add_Ok
    (Hc2 & Hm2 & Hs2 & Hr2 & Hn2)%remove_Ok.
  assert (circle c2 = circle c) as Hcirc.
  { rewrite Hc2, Hc1. unfold replicas. rewrite Hr1.
    apply unplace_place_absent. exact Habs. }
  apply Consistent_eq.
  - exact Hcirc.
  - rewrite Hm2, Hm1. apply set_eq. intros x.
    rewrite elem_of_difference, elem_of_union, elem_of_singleton.
    split; [tauto |]. intros Hx. split; [tauto |]. intros ->. contradiction.
  - rewrite Hs2, Hcirc. symmetry. apply cache_ok_iff, Hok.
  - congruence.
  - rewrite Hn2, Hn1. replace (wrap64 (count c + 1) - 1) with (wrap64 (count c + 1) + -1) by lia.
    rewrite wrap64_add_l. replace (count c + 1 + -1) with (count c) by lia.
    apply wrap64_id, Hcount.
Qed.

(** X2: Adding again a member that owns all its replica positions changes
    nothing but [count], which is incremented once more. *)
Theorem Add_member_only_count c e c' :
  cache_ok c ->
  e ∈ members c ->
  (forall p, p ∈ positions c e -> circle c !! p = Some e) ->
  Add c e = Ok c' ->
  circle c' = circle c /\ members c' = members c
  /\ sortedHashes c' = sortedHashes c
  /\ count c' = wrap64 (count c + 1).
Proof.
  intros Hok He Hown (Hc & Hm & Hs & _ & Hn)%add_Ok.
  assert (circle c' = circle c) as Hcirc.
  { rewrite Hc. apply place_owned. exact Hown. }
  split; [exact Hcirc |]. split; [| split; [| exact Hn]].
  - rewrite Hm. apply set_eq. intros x. rewrite elem_of_union, elem_of_singleton.
    split; [intros [-> | Hx]; assumption | tauto].
  - rewrite Hs, Hcirc. symmetry. apply cache_ok_iff, Hok.
Qed.

(** X3: After a successful [Add] with a positive replica count the ring is not
    empty and [Get] succeeds for every key, whatever the state before. *)
Theorem Add_then_Get_succeeds c e c' (key : string) :
  0 < NumberOfReplicas c ->
  Add c e = Ok c' ->
  e ∈ members c' /\ circle c' <> ∅
  /\ exists x, Get c' key = Ok (Some x) /\ (owners_ok c -> x ∈ members c').
Proof.
  intros Hrep Hadd.
  pose proof (add_cache_ok _ _ _ Hadd) as Hok'.
  pose proof Hadd as (Hc & Hm & _ & _ & _)%add_Ok.
  assert (circle c' !! position e 0 = Some e) as H0.
  { rewrite Hc, lookup_place. rewrite decide_True; [reflexivity |].
    apply list_elem_of_fmap. exists 0. split; [reflexivity |].
    unfold replicas. apply elem_of_seqZ. lia. }
  assert (circle c' <> ∅) as Hne.
  { intros Hempty. rewrite Hempty, lookup_empty in H0. discriminate. }
  split; [rewrite Hm; apply elem_of_union_l, elem_of_singleton; reflexivity |].
  split; [exact Hne |].
  destruct (Get_serves c' key Hok' Hne) as (p & [[x Hx] _] & HGet).
  exists x. split; [rewrite HGet, Hx; reflexivity |].
  intros Hown. apply (add_owners_ok _ _ _ Hown Hadd p x Hx).
Qed.

Lemma queries_on_empty c (key : string) (n : Z) (fuel : nat) :
  circle c = ∅ ->
  Get c key = Err ErrEmptyCircle
  /\ GetTwo fuel c key = Some (Err ErrEmptyCircle)
  /\ GetN fuel c key n = Some (Err ErrEmptyCircle).
Proof.
  intros Hempty. unfold Get, GetTwo, GetN. rewrite Hempty.
  rewrite !bool_decide_eq_true_2 by apply map_size_empty. auto.
Qed.

(** X5: Removing the only member of a ring whose entries all belong to members
    empties it: the queries fail with [ErrEmptyCircle] afterwards. *)
Theorem Remove_last_member_empties c e c' (key : string) (n : Z) (fuel : nat) :
  owners_ok c -> members c = {[e]} ->
  Remove c e = Ok c' ->
  circle c' = ∅ /\ members c' = ∅ /\ sortedHashes c' = []
  /\ Get c' key = Err ErrEmptyCircle
  /\ GetTwo fuel c' key = Some (Err ErrEmptyCircle)
  /\ GetN fuel c' key n = Some (Err ErrEmptyCircle).
Proof.
  intros Hown Hmem (Hc & Hm & Hs & _ & _)%remove_Ok.
  assert (circle c' = ∅) as Hempty.
  { apply map_eq. intros p. rewrite Hc, lookup_unplace, lookup_empty.
    case_decide as Hin; [reflexivity |].
    destruct (circle c !! p) as [x |] eqn:Hx; [| reflexivity].
    destruct (Hown p x Hx) as [Hxm Hxp]. rewrite Hmem in Hxm.
    apply elem_of_singleton in Hxm as ->. contradiction. }
  split; [exact Hempty |]. split; [| split].
  - rewrite Hm, Hmem. apply set_eq. intros x.
    rewrite elem_of_difference, elem_of_singleton. split; [tauto |].
    intros Hx. inversion Hx.
  - rewrite Hs, Hempty. reflexivity.
  - apply queries_on_empty. exact Hempty.
Qed.

(** X6: On a ring whose entries all belong to members, a node that has been
    removed is not returned by [Get] any more. *)
Theorem Removed_not_returned c e c' (key : string) :
  owners_ok c -> Remove c e = Ok c' ->
  (e ∉ members c') /\ Get c' key <> Ok (Some e).
Proof.
  intros Hown Hrem.
  pose proof (remove_owners_ok _ _ _ Hown Hrem) as Hown'.
  pose proof (remove_cache_ok _ _ _ Hrem) as Hok'.
  apply remove_Ok in Hrem as (_ & Hm & _ & _ & _).
  assert (e ∉ members c') as Hnot.
  { rewrite Hm. intros [_ Hn]%elem_of_difference. apply Hn, elem_of_singleton. reflexivity. }
  split; [exact Hnot |]. intros HGet.
  destruct (decide (circle c' = ∅)) as [Hempty | Hne].
  - destruct (queries_on_empty c' key 0 0 Hempty) as [HG _]. congruence.
  - destruct (Get_serves c' key Hok' Hne) as (p & [[x Hx] _] & HGet').
    rewrite HGet', Hx in HGet. injection HGet as ->.
    apply Hnot. apply (Hown' p e Hx).
Qed.


End Ring_laws.


Section Set_laws.
Context {node : Type} `{WriteCloser node}.
Implicit Types (c : Consistent node) (e : node).

Lemma Set_members c (elts : list node) c' :
  Set_ c elts = Ok c' -> forall x, x ∈ members c' <-> x ∈ elts.
Proof.
  unfold Set_.
  destruct (Set_remove_loop elts (elements (members c)) c) as [c1 | |] eqn:H1;
    simpl; try discriminate.
  intros H2 x.
  destruct (Set_remove_loop_spec _ _ _ _ H1) as (_ & Hmem1 & _).
  destruct (Set_add_loop_spec _ _ _ H2) as (_ & Hmem2 & _).
  rewrite Hmem2, Hmem1. split; [| tauto].
  intros [[Hx Hn] | Hx]; [| exact Hx].
  destruct (decide (x ∈ elts)) as [Hin | Hnin]; [exact Hin |].
  exfalso. apply Hn. split; [apply elem_of_elements, Hx | exact Hnin].
Qed.

Lemma foldM_fixed {A} (step : Consistent node -> A -> result (Consistent node))
    (l : list A) c :
  (forall x, x ∈ l -> step c x = Ok c) -> foldM step l c = Ok c.
Proof.
  induction l as [| x l IH]; intros Hstep; simpl; [reflexivity |].
  rewrite Hstep by left. simpl. apply IH. intros y Hy. apply Hstep. right. exact Hy.
Qed.

(** X9: A second [Set] with the same list changes nothing at all: it returns
    the very state the first one produced, without rebuilding the cache. *)
Theorem Set_idempotent c (elts : list node) c' :
  Set_ c elts = Ok c' -> Set_ c' elts = Ok c'.
Proof.
  intros Hset. pose proof (Set_members c elts c' Hset) as Hmem.
  unfold Set_, Set_remove_loop, Set_add_loop.
  rewrite foldM_fixed; simpl.
  - apply foldM_fixed. intros v Hv.
    rewrite bool_decide_eq_true_2 by (apply Hmem; exact Hv). reflexivity.
  - intros k Hk%elem_of_elements%Hmem.
    apply sliceContainsMember_spec in Hk. rewrite Hk. reflexivity.
Qed.

(** X10: [Members()] after [Set elts]: the distinct handles of [elts], each
    once. *)
Theorem Members_after_Set c (elts : list node) c' :
  Set_ c elts = Ok c' -> Members c' ≡ₚ remove_dups elts.
Proof.
  intros Hset. apply NoDup_Permutation.
  - apply NoDup_elements.
  - apply NoDup_remove_dups.
  - intros x. unfold Members. rewrite elem_of_elements, elem_of_remove_dups.
    apply (Set_members c elts c' Hset).
Qed.

Lemma count_remove_loop (elts ks : list node) c c1 :
  NoDup ks -> (forall k, k ∈ ks -> k ∈ members c) ->
  count_ok c -> Z.of_nat (size (members c)) < 2 ^ 63 ->
  Set_remove_loop elts ks c = Ok c1 ->
  count_ok c1 /\ (size (members c1) <= size (members c))%nat.
Proof.
  unfold Set_remove_loop. revert c.
  induction ks as [| k ks IH]; intros c Hnd Hin Hcount Hbound; simpl.
  - intros [= <-]. split; [exact Hcount | lia].
  - apply NoDup_cons in Hnd as [Hk Hnd].
    destruct (sliceContainsMember elts k); simpl.
    + apply IH; [exact Hnd | | exact Hcount | exact Hbound].
      intros k' Hk'. apply Hin. right. exact Hk'.
    + destruct (remove c k) as [c0 | |] eqn:Hrem; simpl; try discriminate.
      apply remove_Ok in Hrem as (_ & Hm0 & _ & _ & Hn0).
      assert (k ∈ members c) as Hkm by (apply Hin; left).
      assert (size (members c0) = (size (members c) - 1)%nat) as Hsize.
      { rewrite Hm0, size_difference, size_singleton; [reflexivity |].
        intros x ->%elem_of_singleton. exact Hkm. }
      assert (size (members c) <> 0%nat) as Hpos.
      { intros Hz. apply size_empty_inv in Hz. apply Hz in Hkm. inversion Hkm. }
      intros Hloop. destruct (IH c0) as [Hc1 Hle]; [exact Hnd | | | | exact Hloop |].
      * intros k' Hk'. rewrite Hm0. apply elem_of_difference.
        split; [apply Hin; right; exact Hk' |].
        intros ->%elem_of_singleton. contradiction.
      * red. rewrite Hn0, Hsize. red in Hcount. rewrite Hcount.
        rewrite wrap64_id; lia.
      * lia.
      * split; [exact Hc1 | lia].
Qed.

Lemma count_add_loop (l : list node) c1 c2 :
  count_ok c1 ->
  Z.of_nat (size (members c1)) + Z.of_nat (length l) < 2 ^ 63 ->
  Set_add_loop l c1 = Ok c2 -> count_ok c2.
Proof.
  unfold Set_add_loop. revert c1.
  induction l as [| v l IH]; intros c1 Hcount Hbound; simpl.
  - intros [= <-]. exact Hcount.
  - simpl in Hbound. case_bool_decide as Hv; simpl.
    + apply IH; [exact Hcount | lia].
    + destruct (add c1 v) as [c0 | |] eqn:Hadd; simpl; try discriminate.
      apply add_Ok in Hadd as (_ & Hm0 & _ & _ & Hn0).
      assert (size (members c0) = S (size (members c1))) as Hsize.
      { rewrite Hm0, size_union, size_singleton; [reflexivity |].
        intros x ->%elem_of_singleton. exact Hv. }
      apply IH.
      * red. rewrite Hn0, Hsize. red in Hcount. rewrite Hcount.
        rewrite wrap64_id; lia.
      * lia.
Qed.

(** X11: [Set] keeps [count] equal to the number of members (the guards that
    [Add] and [Remove] lack): after it, [count] is the number of distinct
    handles of the list. *)
Theorem Set_keeps_count c (elts : list node) c' :
  count_ok c ->
  Z.of_nat (size (members c)) + Z.of_nat (length elts) < 2 ^ 63 ->
  Set_ c elts = Ok c' ->
  count_ok c' /\ count c' = Z.of_nat (length (remove_dups elts)).
Proof.
  intros Hcount Hbound Hset.
  assert (count_ok c') as Hok'.
  { revert Hset. unfold Set_.
    destruct (Set_remove_loop elts (elements (members c)) c) as [c1 | |] eqn:H1;
      simpl; try discriminate.
    destruct (count_remove_loop elts (elements (members c)) c c1) as [Hc1 Hle];
      [apply NoDup_elements | intros k; apply elem_of_elements | exact Hcount | lia
       | exact H1 |].
    apply count_add_loop; [exact Hc1 | lia]. }
  split; [exact Hok' |]. red in Hok'. rewrite Hok'. f_equal.
  assert (Members c' ≡ₚ remove_dups elts) as Hperm.
  { apply NoDup_Permutation;
      [apply NoDup_elements | apply NoDup_remove_dups |].
    intros x. unfold Members. rewrite elem_of_elements, elem_of_remove_dups.
    apply (Set_members c elts c' Hset). }
  apply Permutation_length in Hperm. rewrite <- Hperm. reflexivity.
Qed.

Lemma unplace_comm a b (idx : list Z) (m : gmap Z node) :
  unplace b idx (unplace a idx m) = unplace a idx (unplace b idx m).
Proof.
  apply map_eq. intros p. rewrite !lookup_unplace.
  repeat case_decide; reflexivity.
Qed.

Lemma remove_comm c a b :
  (c1 ← remove c a; remove c1 b) = (c1 ← remove c b; remove c1 a).
Proof.
  unfold remove, updateSortedHashes, replicas. simpl.
  destruct (wrap64 (NumberOfReplicas c * 4) =? 0) eqn:Hr; simpl; [reflexivity |].
  rewrite Hr. simpl. f_equal.
  rewrite (unplace_comm a b).
  replace (members c ∖ {[a]} ∖ {[b]}) with (members c ∖ {[b]} ∖ {[a]}); [reflexivity |].
  apply set_eq. intros z. rewrite !elem_of_difference. tauto.
Qed.

Lemma result_bind_assoc {A B C} (m : result A) (f : A -> result B) (g : B -> result C) :
  (y ← (x ← m; f x); g y) = (x ← m; y ← f x; g y).
Proof. destruct m; reflexivity. Qed.

Lemma Set_remove_step_comm (elts : list node) c a b :
  let step := fun c k => if sliceContainsMember elts k then Ok c else remove c k in
  (c1 ← step c a; step c1 b) = (c1 ← step c b; step c1 a).
Proof.
  simpl.
  destruct (sliceContainsMember elts a) eqn:Ha,
           (sliceContainsMember elts b) eqn:Hb; simpl.
  - reflexivity.
  - destruct (remove c b); reflexivity.
  - destruct (remove c a); reflexivity.
  - apply remove_comm.
Qed.

(** X12: The first loop of [Set] ranges over a Go map, whose iteration order is
    not specified: whatever order the members are visited in, the loop
    ends in the same state (or panics alike). *)
Theorem Set_remove_loop_order (elts ks ks' : list node) c :
  ks ≡ₚ ks' -> Set_remove_loop elts ks c = Set_remove_loop elts ks' c.
Proof.
  unfold Set_remove_loop. intros Hperm. revert c.
  induction Hperm as [| x l l' _ IH | x y l | l l' l'' _ IH1 _ IH2]; intros c.
  - reflexivity.
  - cbn [foldM].
    destruct (if sliceContainsMember elts x then Ok c else remove c x);
      simpl; [apply IH | reflexivity | reflexivity].
  - cbn [foldM]. rewrite <- !result_bind_assoc.
    rewrite (Set_remove_step_comm elts c y x). reflexivity.
  - rewrite IH1. apply IH2.
Qed.

End Set_laws.


Section Query_laws.
Context {node : Type} `{WriteCloser node}.
Implicit Types (c : Consistent node) (a b : option node).

(** ** No query reads outside the cache *)

Lemma wrapped_index_lt c (i : nat) :
  sortedHashes c <> [] ->
  ((if bool_decide (length (sortedHashes c) <= i)%nat then 0%nat else i)
   < length (sortedHashes c))%nat.
Proof.
  intros Hnil. destruct (sortedHashes c); [contradiction |].
  case_bool_decide; simpl in *; lia.
Qed.

Lemma getTwo_walk_no_panic c a (fuel start i : nat) b r :
  sortedHashes c <> [] -> getTwo_walk fuel c a start i b = Some r ->
  exists b', r = Ok b'.
Proof.
  intros Hnil. revert i b. induction fuel as [| fuel IH]; intros i b; [discriminate |].
  cbn [getTwo_walk]. case_bool_decide; [intros [= <-]; eauto |].
  destruct (nodeAt_lt c _ (wrapped_index_lt c i Hnil)) as (p & _ & ->).
  case_bool_decide; [intros [= <-]; eauto | apply IH].
Qed.

Lemma getN_walk_no_panic c (n : Z) (fuel start i : nat) res r :
  sortedHashes c <> [] -> getN_walk fuel c n start i res = Some r ->
  exists res', r = Ok res'.
Proof.
  intros Hnil. revert i res. induction fuel as [| fuel IH]; intros i res; [discriminate |].
  cbn [getN_walk]. case_bool_decide; [intros [= <-]; eauto |].
  destruct (nodeAt_lt c _ (wrapped_index_lt c i Hnil)) as (p & _ & ->).
  case_bool_decide; [intros [= <-]; eauto | apply IH].
Qed.

(** X15: On a ring whose cache reflects the table, [Get] and [GetTwo] never
    panic (no index out of range), and [GetN] panics exactly when the ring
    is not empty and the capacity passed to [make], the smaller of [n] and
    [count], is negative (allocation limits apart). *)
Theorem queries_panic_iff c (key : string) (n : Z) (fuel : nat) :
  cache_ok c ->
  Get c key <> Panic
  /\ GetTwo fuel c key <> Some Panic
  /\ (GetN fuel c key n = Some Panic <-> circle c <> ∅ /\ (n < 0 \/ count c < 0)).
Proof.
  intros Hok.
  destruct (decide (circle c = ∅)) as [Hempty | Hne].
  { destruct (queries_on_empty c key n fuel Hempty) as (-> & -> & ->).
    split; [discriminate |]. split; [discriminate |].
    split; [discriminate | intros [Hne _]; contradiction]. }
  pose proof (cache_ok_nonempty c Hok Hne) as Hnil.
  pose proof (search_lt c (hashKey key) Hnil) as Hstart.
  destruct (nodeAt_lt c _ Hstart) as (p & _ & Hnode).
  assert (size (circle c) <> 0%nat) as Hsize by (by apply map_size_non_empty_iff).
  unfold Get, GetTwo, GetN. rewrite !bool_decide_eq_false_2 by exact Hsize.
  rewrite Hnode. split; [discriminate |]. split.
  - destruct (count c =? 1); [discriminate |].
    destruct (getTwo_walk fuel c (circle c !! p) (search c (hashKey key))
                (S (search c (hashKey key))) None) as [r |] eqn:Hw; [| discriminate].
    destruct (getTwo_walk_no_panic _ _ _ _ _ _ _ Hnil Hw) as [b' ->]. discriminate.
  - set (n' := if count c <? n then count c else n).
    assert (n' < 0 <-> n < 0 \/ count c < 0) as Hn'.
    { unfold n'. destruct (Z.ltb_spec (count c) n); lia. }
    destruct (Z.ltb_spec n' 0) as [Hneg | Hpos].
    + split; [intros _; split; [exact Hne | apply Hn', Hneg] | reflexivity].
    + split; [| intros [_ Hn]; apply Hn' in Hn; lia].
      case_bool_decide; [discriminate |].
      intros Hw. destruct (getN_walk_no_panic _ _ _ _ _ _ _ Hnil Hw) as [r' Hr].
      discriminate.
Qed.

(** ** The walk of [GetN] with a positive bound *)

Lemma owners_lookup c (i : nat) (x : option node) :
  owners c !! i = Some x <-> nodeAt c i = Ok x.
Proof.
  unfold owners, nodeAt. rewrite list_lookup_fmap.
  destruct (sortedHashes c !! i); simpl; split; congruence.
Qed.

Lemma owners_members c :
  cache_ok c -> owners_ok c -> members_placed c ->
  forall o, o ∈ owners c <-> exists x, o = Some x /\ x ∈ members c.
Proof.
  intros Hok Hown Hplaced o. unfold owners. rewrite list_elem_of_fmap. split.
  - intros (p & -> & Hp). apply Hok in Hp as [x Hx].
    exists x. split; [exact Hx | apply (Hown p x Hx)].
  - intros (x & -> & Hx). destruct (Hplaced x Hx) as [p Hp].
    exists p. split; [symmetry; exact Hp | apply Hok; eauto].
Qed.

Lemma owners_distinct c :
  cache_ok c -> owners_ok c -> members_placed c ->
  size (list_to_set (owners c) : gset (option node)) = size (members c).
Proof.
  intros Hok Hown Hplaced.
  assert ((list_to_set (owners c) : gset (option node))
          = list_to_set (Some <$> elements (members c))) as ->.
  { apply set_eq. intros o. rewrite !elem_of_list_to_set.
    rewrite (owners_members c Hok Hown Hplaced), list_elem_of_fmap.
    split; intros (x & -> & Hx); exists x; (split; [reflexivity |]);
      apply elem_of_elements; exact Hx. }
  rewrite size_list_to_set.
  - rewrite length_fmap. reflexivity.
  - apply NoDup_fmap_2; [intros x y [= ->]; reflexivity | apply NoDup_elements].
Qed.

Lemma collect_app (n : Z) (res xs ys : list (option node)) :
  collect n res (xs ++ ys)
  = match collect n res xs with
    | inl r => inl r
    | inr res' => collect n res' ys
    end.
Proof.
  revert res. induction xs as [| x xs IH]; intros res; [reflexivity |].
  cbn [app collect]. case_bool_decide; [reflexivity | apply IH].
Qed.

(** While [res] holds fewer than [n] distinct nodes and the entries ahead
    bring their number to [n] at least, the loop body stops with exactly [n]
    distinct nodes, the first ones met. *)
Lemma collect_spec (n : Z) (xs res : list (option node)) :
  NoDup res -> Z.of_nat (length res) < n ->
  n <= Z.of_nat (size (list_to_set (res ++ xs) : gset (option node))) ->
  exists r, collect n res xs = inl r /\ NoDup r /\ Z.of_nat (length r) = n
    /\ res `prefix_of` r /\ forall x, x ∈ r -> x ∈ res ++ xs.
Proof.
  revert res. induction xs as [| x xs IH]; intros res Hnd Hlen Hn.
  - rewrite app_nil_r, size_list_to_set in Hn by exact Hnd. lia.
  - cbn [collect].
    set (res' := if sliceContainsMember res x then res else res ++ [x]).
    assert (NoDup res' /\ res `prefix_of` res'
            /\ (length res' <= S (length res))%nat
            /\ forall y, y ∈ res' ++ xs <-> y ∈ res ++ x :: xs) as (Hnd' & Hpre & Hlen' & Hsame).
    { unfold res'. destruct (sliceContainsMember res x) eqn:Hx.
      - apply sliceContainsMember_spec in Hx.
        split; [exact Hnd |]. split; [reflexivity |]. split; [lia |].
        intros y. rewrite !elem_of_app, elem_of_cons. split; [tauto |].
        intros [Hy | [-> | Hy]]; tauto.
      - assert (x ∉ res) as Hnx.
        { intros Hin%sliceContainsMember_spec. congruence. }
        split.
        { apply NoDup_app. split; [exact Hnd |]. split; [| apply NoDup_singleton].
          intros y Hy ->%list_elem_of_singleton. contradiction. }
        split; [apply prefix_app_r; reflexivity |].
        split; [rewrite length_app; simpl; lia |].
        intros y. rewrite <- app_assoc. reflexivity. }
    case_bool_decide as Hstop.
    + exists res'. split; [reflexivity |]. split; [exact Hnd' |].
      split; [exact Hstop |]. split; [exact Hpre |].
      intros y Hy. apply Hsame. apply elem_of_app. left. exact Hy.
    + destruct (IH res') as (r & Hr & Hndr & Hlenr & Hprer & Hin).
      * exact Hnd'.
      * lia.
      * replace (list_to_set (res' ++ xs) : gset (option node))
          with (list_to_set (res ++ x :: xs) : gset (option node)); [exact Hn |].
        apply set_eq. intros y. rewrite !elem_of_list_to_set. symmetry. apply Hsame.
      * exists r. split; [exact Hr |]. split; [exact Hndr |]. split; [exact Hlenr |].
        split; [etrans; eassumption |].
        intros y Hy. apply Hsame, Hin, Hy.
Qed.

(** The walk of [GetN] along a stretch [xs] of the cache that does not
    contain [start]: it is the loop body run along [xs]. *)
Lemma getN_walk_seg c (n : Z) (start : nat) (xs : list (option node)) :
  forall (i : nat) (res : list (option node)) (fuel : nat),
    (start < i \/ i + length xs <= start)%nat ->
    (forall k x, xs !! k = Some x -> nodeAt c (i + k) = Ok x) ->
    getN_walk (length xs + fuel) c n start i res
    = match collect n res xs with
      | inl r => Some (Ok r)
      | inr res' => getN_walk fuel c n start (i + length xs) res'
      end.
Proof.
  induction xs as [| x xs IH]; intros i res fuel Hi Hxs.
  - simpl. rewrite Nat.add_0_r. reflexivity.
  - pose proof (Hxs 0%nat x eq_refl) as Hx. rewrite Nat.add_0_r in Hx.
    assert (i < length (sortedHashes c))%nat as Hlt.
    { unfold nodeAt in Hx. destruct (sortedHashes c !! i) eqn:Hp; [| discriminate].
      eapply lookup_lt_Some. exact Hp. }
    cbn [length Nat.add getN_walk collect]. simpl in Hi.
    rewrite bool_decide_eq_false_2 by lia.
    rewrite (bool_decide_eq_false_2 (_ <= _)%nat) by lia.
    rewrite Hx. case_bool_decide; [reflexivity |].
    rewrite IH.
    + replace (S i + length xs)%nat with (i + S (length xs))%nat by lia. reflexivity.
    + lia.
    + intros k y Hy. replace (S i + k)%nat with (i + S k)%nat by lia.
      apply Hxs. exact Hy.
Qed.

(** At the end of the cache the walk goes on from index 0. *)
Lemma getN_walk_wrap c (n : Z) (start fuel : nat) (res : list (option node)) :
  start <> 0%nat -> (start < length (sortedHashes c))%nat ->
  getN_walk fuel c n start (length (sortedHashes c)) res
  = getN_walk fuel c n start 0 res.
Proof.
  intros Hs Hlt. destruct fuel as [| fuel]; [reflexivity |].
  cbn [getN_walk].
  rewrite (bool_decide_eq_false_2 (length (sortedHashes c) = start)) by lia.
  rewrite (bool_decide_eq_false_2 (0%nat = start)) by lia.
  rewrite (bool_decide_eq_true_2 (length (sortedHashes c) <= length (sortedHashes c))%nat)
    by lia.
  rewrite (bool_decide_eq_false_2 (length (sortedHashes c) <= 0)%nat) by lia.
  reflexivity.
Qed.

(** X20: [GetN] with [n >= 1] on a well-formed, non-empty ring: it returns (given
    enough fuel) the smaller of [n] and the number of members many nodes,
    pairwise distinct, all members and none [nil], the first of them the
    node [Get] returns. *)
Theorem GetN_spec c (key : string) (n : Z) :
  cache_ok c -> owners_ok c -> members_placed c -> count_ok c -> circle c <> ∅ ->
  1 <= n ->
  exists x r fuel0,
    Get c key = Ok (Some x) /\ head r = Some (Some x) /\ NoDup r
    /\ Z.of_nat (length r) = Z.min n (Z.of_nat (size (members c)))
    /\ (forall o, o ∈ r -> exists y, o = Some y /\ y ∈ members c)
    /\ forall fuel, (fuel0 <= fuel)%nat -> GetN fuel c key n = Some (Ok r).
Proof.
  intros Hok Hown Hplaced Hcount Hne Hn.
  pose proof (cache_ok_nonempty c Hok Hne) as Hnil.
  pose proof (search_lt c (hashKey key) Hnil) as Hstart.
  set (start := search c (hashKey key)) in *.
  destruct (nodeAt_lt c start Hstart) as (p & Hp & Hnode).
  assert (is_Some (circle c !! p)) as [x Hx].
  { apply Hok. eapply list_elem_of_lookup_2. exact Hp. }
  rewrite Hx in Hnode.
  assert (x ∈ members c) as Hxm by apply (Hown p x Hx).
  assert (size (members c) <> 0%nat) as Hpos.
  { intros Hz. apply size_empty_inv in Hz. apply Hz in Hxm. inversion Hxm. }
  assert (size (circle c) <> 0%nat) as Hsize by (by apply map_size_non_empty_iff).
  assert (Get c key = Ok (Some x)) as HGet.
  { unfold Get. rewrite bool_decide_eq_false_2 by exact Hsize. exact Hnode. }
  red in Hcount.
  set (n' := Z.min n (Z.of_nat (size (members c)))).
  assert ((if count c <? n then count c else n) = n') as Hn'.
  { unfold n'. rewrite Hcount. destruct (Z.ltb_spec (Z.of_nat (size (members c))) n); lia. }
  assert (forall fuel, GetN fuel c key n
            = if bool_decide (Z.of_nat (length [Some x]) = n') then Some (Ok [Some x])
              else getN_walk fuel c n' start (S start) [Some x]) as HGetN.
  { intros fuel. unfold GetN. rewrite bool_decide_eq_false_2 by exact Hsize.
    rewrite Hn'. fold start. rewrite (proj2 (Z.ltb_ge n' 0)) by (unfold n'; lia).
    rewrite Hnode. reflexivity. }
  assert (owners c !! start = Some (Some x)) as Hox by (apply owners_lookup, Hnode).
  pose proof (take_drop_middle (owners c) start (Some x) Hox) as Hsplit.
  set (seg1 := drop (S start) (owners c)) in *.
  set (seg2 := take start (owners c)) in *.
  assert (forall o, o ∈ [Some x] ++ (seg1 ++ seg2) <-> o ∈ owners c) as Hall.
  { intros o. rewrite <- Hsplit. rewrite !elem_of_app, !elem_of_cons, elem_of_nil. tauto. }
  assert (forall o, o ∈ [Some x] ++ (seg1 ++ seg2) ->
            exists y, o = Some y /\ y ∈ members c) as Hmem.
  { intros o Ho. apply (owners_members c Hok Hown Hplaced), Hall, Ho. }
  destruct (decide (Z.of_nat (length [Some x]) = n')) as [H1 | H1].
  { exists x, [Some x], 0%nat. split; [exact HGet |]. split; [reflexivity |].
    split; [apply NoDup_singleton |]. split; [exact H1 |]. split.
    - intros o Ho. apply Hmem. apply elem_of_app. left. exact Ho.
    - intros fuel _. rewrite HGetN, bool_decide_eq_true_2 by exact H1. reflexivity. }
  destruct (collect_spec n' (seg1 ++ seg2) [Some x])
    as (r & Hr & Hndr & Hlenr & Hprer & Hin).
  { apply NoDup_singleton. }
  { simpl in *. unfold n' in *. lia. }
  { replace (list_to_set ([Some x] ++ (seg1 ++ seg2)) : gset (option node))
      with (list_to_set (owners c) : gset (option node)).
    - rewrite (owners_distinct c Hok Hown Hplaced). unfold n'. lia.
    - apply set_eq. intros o. rewrite !elem_of_list_to_set. symmetry. apply Hall. }
  assert (forall k o, seg1 !! k = Some o -> nodeAt c (S start + k) = Ok o) as Hseg1.
  { intros k o Ho. apply owners_lookup. unfold seg1 in Ho.
    rewrite lookup_drop in Ho. exact Ho. }
  assert (forall k o, seg2 !! k = Some o -> nodeAt c (0 + k) = Ok o) as Hseg2.
  { intros k o Ho. apply owners_lookup. unfold seg2 in Ho.
    apply lookup_take_Some in Ho as [Ho _]. exact Ho. }
  assert (length (owners c) = length (sortedHashes c)) as Hlen
    by (unfold owners; apply length_fmap).
  assert (S start + length seg1 = length (sortedHashes c))%nat as Hlen1.
  { unfold seg1. rewrite length_drop. lia. }
  assert (length seg2 <= start)%nat as Hlen2.
  { unfold seg2. rewrite length_take. lia. }
  exists x, r, (length seg1 + length seg2)%nat.
  split; [exact HGet |]. split.
  { destruct Hprer as [k ->]. reflexivity. }
  split; [exact Hndr |]. split; [exact Hlenr |]. split.
  { intros o Ho. apply Hmem, Hin, Ho. }
  intros fuel Hfuel. rewrite HGetN, bool_decide_eq_false_2 by exact H1.
  replace fuel with (length seg1 + (length seg2 + (fuel - (length seg1 + length seg2))))%nat
    by lia.
  rewrite (getN_walk_seg c n' start seg1 (S start) [Some x]); [| lia | exact Hseg1].
  rewrite collect_app in Hr.
  destruct (collect n' [Some x] seg1) as [r1 | res1]; [congruence |].
  assert (start <> 0%nat) as Hs0.
  { intros Hz. unfold seg2 in Hr. rewrite Hz in Hr. simpl in Hr. discriminate. }
  rewrite Hlen1, (getN_walk_wrap c n' start) by assumption.
  rewrite (getN_walk_seg c n' start seg2 0%nat res1); [| lia | exact Hseg2].
  rewrite Hr. reflexivity.
Qed.


(** ** The second node of [GetTwo] *)

(** The walk of [GetTwo] stops on the first index after [start], in the
    order [start + 1, ..., len - 1, 0, ..., start - 1], whose node differs
    from [a]. *)
Lemma getTwo_walk_nearest c a (start j0 : nat) :
  (start < length (sortedHashes c))%nat ->
  (j0 < length (sortedHashes c))%nat -> j0 <> start ->
  (exists b, nodeAt c j0 = Ok b /\ b <> a) ->
  exists b j fuel0, (j < length (sortedHashes c))%nat /\ j <> start
    /\ nodeAt c j = Ok b /\ b <> a
    /\ (forall k, (start < k < j
                   \/ (j < start /\ (start < k < length (sortedHashes c) \/ k < j)))%nat ->
                  nodeAt c k = Ok a)
    /\ forall fuel, (fuel0 <= fuel)%nat ->
         getTwo_walk fuel c a start (S start) None = Some (Ok b).
Proof.
  intros Hstart Hj0 Hne Hfound.
  destruct (tail_all_or_some c a (length (sortedHashes c) - S start) (S start))
    as [Hall | (k & m & Hk & Hm & Hma)]; [lia | |].
  - assert (j0 < start)%nat as Hlt.
    { destruct (decide (j0 < start)%nat); [assumption |].
      destruct Hfound as (m & Hm & Hma). rewrite Hall in Hm by lia. congruence. }
    destruct (getTwo_walk_wrap c a start (length (sortedHashes c) - S start)
                (S start) j0 None)
      as (b & j & Hj & Hb & Hba & Hbefore & Hwalk);
      [lia | lia | lia | lia | exact Hall | exact Hfound |].
    exists b, j, (S (length (sortedHashes c) - S start + S j0)).
    split; [lia |]. split; [lia |]. split; [exact Hb |]. split; [exact Hba |]. split.
    + intros k [Hk | [_ [Hk | Hk]]]; [lia | apply Hall; lia | apply Hbefore; lia].
    + intros fuel Hfuel. eapply getTwo_walk_mono; [exact Hfuel | exact Hwalk].
  - destruct (getTwo_walk_up c a start (k - S start) (S start) k None)
      as (b & j & Hj & Hb & Hba & Hbefore & Hwalk); [lia | lia | lia | eauto |].
    exists b, j, (S (k - S start)). split; [lia |]. split; [lia |].
    split; [exact Hb |]. split; [exact Hba |]. split.
    + intros k' [Hk' | [Hk' _]]; [apply Hbefore; lia | lia].
    + intros fuel Hfuel. eapply getTwo_walk_mono; [exact Hfuel | exact Hwalk].
Qed.

(** X17: When [count] is not 1 and the table holds a node other than the one
    [Get] returns, [GetTwo] returns (given enough fuel) that node and the
    next different node clockwise: every cache index between the one [Get]
    reads and the one of the second node, wrapping at the end of the cache,
    holds the first node. *)
Theorem GetTwo_nearest c (key : string) (x : node) :
  cache_ok c -> circle c <> ∅ -> count c <> 1 ->
  Get c key = Ok (Some x) ->
  (exists p y, circle c !! p = Some y /\ y <> x) ->
  let start := search c (hashKey key) in
  exists (y : node) (j fuel0 : nat),
    y <> x /\ j <> start /\ nodeAt c j = Ok (Some y)
    /\ (forall k, (start < k < j
                   \/ (j < start /\ (start < k < length (sortedHashes c) \/ k < j)))%nat ->
                  nodeAt c k = Ok (Some x))
    /\ forall fuel, (fuel0 <= fuel)%nat ->
         GetTwo fuel c key = Some (Ok (Some x, Some y)).
Proof.
  intros Hok Hne Hcount HGet (q & m & Hq & Hmx) start.
  pose proof (cache_ok_nonempty c Hok Hne) as Hnil.
  pose proof (search_lt c (hashKey key) Hnil) as Hstart. fold start in Hstart.
  assert (size (circle c) <> 0%nat) as Hsize by (by apply map_size_non_empty_iff).
  assert (nodeAt c start = Ok (Some x)) as Hnode.
  { revert HGet. unfold Get. rewrite bool_decide_eq_false_2 by exact Hsize. auto. }
  assert (q ∈ sortedHashes c) as Hqin by (apply Hok; eauto).
  apply list_elem_of_lookup_1 in Hqin as [j0 Hj0].
  assert (nodeAt c j0 = Ok (Some m)) as Hm by (unfold nodeAt; rewrite Hj0, Hq; reflexivity).
  destruct (getTwo_walk_nearest c (Some x) start j0)
    as (b & j & fuel0 & Hj & Hjs & Hb & Hba & Hbefore & Hwalk).
  - exact Hstart.
  - eapply lookup_lt_Some. exact Hj0.
  - intros ->. congruence.
  - exists (Some m). split; [exact Hm | congruence].
  - destruct (nodeAt_lt c j Hj) as (pj & Hpj & Hnj).
    assert (is_Some (circle c !! pj)) as [y Hy].
    { apply Hok. eapply list_elem_of_lookup_2. exact Hpj. }
    rewrite Hy in Hnj. rewrite Hnj in Hb. injection Hb as <-.
    exists y, j, fuel0. split; [congruence |]. split; [exact Hjs |].
    split; [exact Hnj |]. split; [exact Hbefore |].
    intros fuel Hfuel. unfold GetTwo.
    rewrite bool_decide_eq_false_2 by exact Hsize. fold start. rewrite Hnode.
    rewrite (proj2 (Z.eqb_neq _ _)) by exact Hcount.
    rewrite (Hwalk fuel Hfuel). reflexivity.
Qed.

(** ** [GetTwo] on a ring with a single node and a stale [count] *)

Lemma getTwo_walk_same_diverges c a (fuel i : nat) b :
  sortedHashes c <> [] ->
  (forall k, (k < length (sortedHashes c))%nat -> nodeAt c k = Ok a) ->
  i <> 0%nat -> getTwo_walk fuel c a 0 i b = None.
Proof.
  intros Hnil Hall. revert i b. induction fuel as [| fuel IH]; intros i b Hi;
    [reflexivity |].
  cbn [getTwo_walk]. rewrite bool_decide_eq_false_2 by exact Hi.
  rewrite (Hall _ (wrapped_index_lt c i Hnil)).
  rewrite bool_decide_eq_false_2 by (intros Hn; apply Hn; reflexivity).
  apply IH. lia.
Qed.

Lemma getTwo_walk_same_up c a (start d i : nat) :
  (forall k, (k < length (sortedHashes c))%nat -> nodeAt c k = Ok a) ->
  (i + d = start)%nat -> (start < length (sortedHashes c))%nat ->
  getTwo_walk (S d) c a start i a = Some (Ok a).
Proof.
  intros Hall. revert i. induction d as [| d IH]; intros i Hi Hstart.
  - cbn [getTwo_walk]. rewrite bool_decide_eq_true_2 by lia. reflexivity.
  - cbn [getTwo_walk]. rewrite bool_decide_eq_false_2 by lia.
    rewrite (bool_decide_eq_false_2 (_ <= _)%nat) by lia.
    rewrite (Hall i) by lia.
    rewrite bool_decide_eq_false_2 by (intros Hn; apply Hn; reflexivity).
    apply IH; lia.
Qed.

Lemma getTwo_walk_same_wrap c a (start d i : nat) b :
  (forall k, (k < length (sortedHashes c))%nat -> nodeAt c k = Ok a) ->
  start <> 0%nat -> (start < i)%nat -> (i + d = length (sortedHashes c))%nat ->
  getTwo_walk (S (d + start)) c a start i b = Some (Ok a).
Proof.
  intros Hall Hs. revert i b. induction d as [| d IH]; intros i b Hi Hd.
  - cbn [Nat.add getTwo_walk]. rewrite bool_decide_eq_false_2 by lia.
    rewrite (bool_decide_eq_true_2 (_ <= _)%nat) by lia.
    rewrite (Hall 0%nat) by lia.
    rewrite bool_decide_eq_false_2 by (intros Hn; apply Hn; reflexivity).
    destruct start as [| s]; [contradiction |].
    apply (getTwo_walk_same_up c a (S s) s 1); [exact Hall | lia | lia].
  - cbn [Nat.add getTwo_walk]. rewrite bool_decide_eq_false_2 by lia.
    rewrite (bool_decide_eq_false_2 (_ <= _)%nat) by lia.
    rewrite (Hall i) by lia.
    rewrite bool_decide_eq_false_2 by (intros Hn; apply Hn; reflexivity).
    apply IH; lia.
Qed.

(** X18: When every entry of the table belongs to one node [x] while [count] is
    not 1 (as after adding [x] twice), [GetTwo] does not return two distinct
    nodes: for a key served at cache index 0 it never returns, whatever the
    fuel; for any other key it returns [x] twice. *)
Theorem GetTwo_single_owner c (key : string) (x : node) :
  cache_ok c -> circle c <> ∅ -> count c <> 1 ->
  (forall p y, circle c !! p = Some y -> y = x) ->
  (search c (hashKey key) = 0%nat -> forall fuel, GetTwo fuel c key = None)
  /\ (search c (hashKey key) <> 0%nat ->
      exists fuel0, forall fuel, (fuel0 <= fuel)%nat ->
        GetTwo fuel c key = Some (Ok (Some x, Some x))).
Proof.
  intros Hok Hne Hcount Hone.
  pose proof (cache_ok_nonempty c Hok Hne) as Hnil.
  pose proof (search_lt c (hashKey key) Hnil) as Hstart.
  assert (size (circle c) <> 0%nat) as Hsize by (by apply map_size_non_empty_iff).
  assert (forall k, (k < length (sortedHashes c))%nat -> nodeAt c k = Ok (Some x)) as Hall.
  { intros k Hk. destruct (nodeAt_lt c k Hk) as (p & Hp & ->).
    assert (is_Some (circle c !! p)) as [y Hy].
    { apply Hok. eapply list_elem_of_lookup_2. exact Hp. }
    rewrite Hy. rewrite (Hone p y Hy). reflexivity. }
  assert (forall fuel, GetTwo fuel c key
            = match getTwo_walk fuel c (Some x) (search c (hashKey key))
                      (S (search c (hashKey key))) None with
              | Some (Ok b) => Some (Ok (Some x, b))
              | Some _ => Some Panic
              | None => None
              end) as HGetTwo.
  { intros fuel. unfold GetTwo. rewrite bool_decide_eq_false_2 by exact Hsize.
    rewrite (Hall _ Hstart). rewrite (proj2 (Z.eqb_neq _ _)) by exact Hcount.
    reflexivity. }
  split.
  - intros H0 fuel. rewrite HGetTwo, H0.
    rewrite (getTwo_walk_same_diverges c (Some x) fuel 1 None Hnil Hall) by lia.
    reflexivity.
  - intros H0. exists (S (length (sortedHashes c) - S (search c (hashKey key))
                          + search c (hashKey key))).
    intros fuel Hfuel. rewrite HGetTwo.
    rewrite (getTwo_walk_mono _ fuel c (Some x) _ _ None (Ok (Some x)) Hfuel
               (getTwo_walk_same_wrap c (Some x) (search c (hashKey key))
                  (length (sortedHashes c) - S (search c (hashKey key)))
                  (S (search c (hashKey key))) None Hall H0 ltac:(lia) ltac:(lia))).
    reflexivity.
Qed.


End Query_laws.


(** ** Hashes and element keys *)

Lemma lxor_uint32 (a b : Z) :
  0 <= a < 2 ^ 32 -> 0 <= b < 2 ^ 32 -> 0 <= Z.lxor a b < 2 ^ 32.
Proof.
  intros Ha Hb.
  assert (0 <= Z.lxor a b) as Hnn by (apply Z.lxor_nonneg; lia).
  split; [exact Hnn |].
  destruct (Z.eq_dec (Z.lxor a b) 0) as [-> | Hnz]; [lia |].
  apply Z.log2_lt_pow2; [lia |].
  pose proof (Z.log2_lxor a b ltac:(lia) ltac:(lia)) as Hlog.
  assert (forall z, 0 <= z < 2 ^ 32 -> Z.log2 z < 32) as Hlt.
  { intros z Hz. destruct (Z.eq_dec z 0) as [-> | Hz0]; [reflexivity |].
    apply Z.log2_lt_pow2; lia. }
  pose proof (Hlt a Ha). pose proof (Hlt b Hb). lia.
Qed.

Lemma shift1_uint32 (crc : Z) : 0 <= crc < 2 ^ 32 -> 0 <= crc32.shift1 crc < 2 ^ 32.
Proof.
  intros Hc. unfold crc32.shift1.
  assert (0 <= Z.shiftr crc 1 < 2 ^ 32) as Hs.
  { rewrite Z.shiftr_div_pow2 by lia. change (2 ^ 1) with 2.
    pose proof (Z.div_pos crc 2). pose proof (Z.div_le_upper_bound crc 2 (2 ^ 31)). lia. }
  destruct (Z.testbit crc 0); [| exact Hs].
  apply lxor_uint32; [exact Hs |]. unfold crc32.IEEE. lia.
Qed.

Lemma update_byte_uint32 (crc : Z) (b : byte) :
  0 <= crc < 2 ^ 32 -> 0 <= crc32.update_byte crc b < 2 ^ 32.
Proof.
  intros Hc. unfold crc32.update_byte.
  do 8 apply shift1_uint32. apply lxor_uint32; [exact Hc |].
  pose proof (Byte.to_N_bounded b). lia.
Qed.

(** X22: The checksum model stays within [uint32]: no wrap-around is missing
    from it, and every position of the ring lies in [[0, 2^32)]. *)
Theorem hashKey_uint32 (key : string) : 0 <= hashKey key < 2 ^ 32.
Proof.
  assert (forall data, 0 <= crc32.ChecksumIEEE data < 2 ^ 32) as Hsum.
  { intros data. unfold crc32.ChecksumIEEE. apply lxor_uint32; [| lia].
    assert (0 <= 0xffffffff < 2 ^ 32) as Hinit by lia.
    revert Hinit. generalize 0xffffffff. induction data as [| b data IH]; intros crc Hc.
    - exact Hc.
    - simpl. apply IH, update_byte_uint32, Hc. }
  unfold hashKey. destruct (_ <? 64); apply Hsum.
Qed.

Lemma Itoa_inj (i j : Z) : strconv.Itoa i = strconv.Itoa j -> i = j.
Proof.
  unfold strconv.Itoa. intros Heq. apply DecimalZ.to_int_inj.
  assert (forall z, NilZero.int_of_string (NilZero.string_of_int (Z.to_int z))
                    = Some (Z.to_int z)) as Hisi.
  { intros z. apply NilZero.isi; destruct z; simpl; try discriminate;
      intros [= Hnil]; revert Hnil; apply Unsigned.to_uint_nonnil. }
  apply (f_equal NilZero.int_of_string) in Heq. rewrite !Hisi in Heq.
  congruence.
Qed.

Lemma append_inj_r (s1 s2 t : string) :
  String.length s1 = String.length s2 ->
  (s1 ++ t)%string = (s2 ++ t)%string -> s1 = s2.
Proof.
  revert s2. induction s1 as [| a s1 IH]; intros [| b s2]; simpl;
    try discriminate; [reflexivity |].
  intros [= Hlen] [= -> Happ]. f_equal. apply IH; assumption.
Qed.

Lemma length_append (s t : string) :
  String.length (s ++ t) = (String.length s + String.length t)%nat.
Proof. induction s as [| a s IH]; simpl; [reflexivity | rewrite IH; reflexivity]. Qed.

(** X23: The replicas of one node get pairwise different keys: the decimal
    index in front of the name tells them apart. *)
Theorem elementKey_index_inj {node : Type} `{WriteCloser node} (e : node) (i j : Z) :
  i <> j -> elementKey e i <> elementKey e j.
Proof.
  unfold elementKey. intros Hij Heq. apply Hij. apply Itoa_inj.
  apply (append_inj_r _ _ (Name e)); [| exact Heq].
  apply (f_equal String.length) in Heq.
  rewrite !length_append in Heq. lia.
Qed.

(** ** The [sort.Interface] methods of [uints] *)

Lemma uints_index_Ok (x : list Z) (i v : Z) :
  uints.index x i = Ok v <-> 0 <= i /\ x !! Z.to_nat i = Some v.
Proof.
  unfold uints.index. destruct (Z.ltb_spec i 0) as [Hneg | Hpos].
  - split; [discriminate | lia].
  - destruct (x !! Z.to_nat i) as [w |]; split.
    + intros [= ->]. auto.
    + intros [_ [= ->]]. reflexivity.
    + discriminate.
    + intros [_ [=]].
Qed.

Lemma uints_index_Panic (x : list Z) (i : Z) :
  uints.index x i = Panic <-> ~ (0 <= i < uints.Len x).
Proof.
  unfold uints.index, uints.Len. destruct (Z.ltb_spec i 0) as [Hneg | Hpos].
  - split; [lia | reflexivity].
  - destruct (x !! Z.to_nat i) as [w |] eqn:Hw; split.
    + discriminate.
    + apply lookup_lt_Some in Hw. lia.
    + apply lookup_ge_None in Hw. lia.
    + reflexivity.
Qed.

Lemma uints_index_cases (x : list Z) (i : Z) :
  (exists v, uints.index x i = Ok v) \/ uints.index x i = Panic.
Proof.
  unfold uints.index. destruct (i <? 0); [right; reflexivity |].
  destruct (x !! Z.to_nat i); [left; eauto | right; reflexivity].
Qed.

(** X24: [Swap] exchanges the two entries and nothing else: the result is a
    permutation of the slice of the same length, and swapping again gives
    the slice back; it panics exactly when an index is out of range. *)
Theorem Swap_exchanges (x : list Z) (i j : Z) :
  (uints.Swap x i j = Panic <-> ~ (0 <= i < uints.Len x /\ 0 <= j < uints.Len x))
  /\ forall y, uints.Swap x i j = Ok y ->
       y ≡ₚ x /\ uints.Len y = uints.Len x
       /\ uints.index y i = uints.index x j /\ uints.index y j = uints.index x i
       /\ (forall k, k <> i -> k <> j -> uints.index y k = uints.index x k)
       /\ uints.Swap y i j = Ok x.
Proof.
  pose proof (uints_index_Panic x i) as HPi.
  pose proof (uints_index_Panic x j) as HPj.
  unfold uints.Swap.
  destruct (uints_index_cases x j) as [[b Hb] | Hb]; rewrite Hb; simpl;
    [| split; [split; [intros _ [_ Hj]; apply (proj1 HPj Hb); exact Hj | reflexivity]
              | discriminate]].
  destruct (uints_index_cases x i) as [[a Ha] | Ha]; rewrite Ha; simpl;
    [| split; [split; [intros _ [Hi _]; apply (proj1 HPi Ha); exact Hi | reflexivity]
              | discriminate]].
  split.
  { split; [discriminate |]. intros Hn. exfalso. apply Hn. split.
    - destruct (decide (0 <= i < uints.Len x)) as [Hi | Hi]; [exact Hi |].
      apply HPi in Hi. congruence.
    - destruct (decide (0 <= j < uints.Len x)) as [Hj | Hj]; [exact Hj |].
      apply HPj in Hj. congruence. }
  intros y [= <-].
  apply uints_index_Ok in Ha as [Hi Ha]. apply uints_index_Ok in Hb as [Hj Hb].
  pose proof (lookup_lt_Some _ _ _ Ha) as Hli.
  pose proof (lookup_lt_Some _ _ _ Hb) as Hlj.
  set (y := <[Z.to_nat j:=a]> (<[Z.to_nat i:=b]> x)).
  assert (y !! Z.to_nat j = Some a) as Hyj.
  { unfold y. apply list_lookup_insert_eq. rewrite length_insert. exact Hlj. }
  assert (y !! Z.to_nat i = Some b) as Hyi.
  { destruct (decide (Z.to_nat i = Z.to_nat j)) as [Heq | Hneq].
    - rewrite Heq in *. rewrite Hyj. congruence.
    - unfold y. rewrite list_lookup_insert_ne by congruence.
      apply list_lookup_insert_eq. exact Hli. }
  split; [apply Permutation_insert_swap; assumption |].
  split; [unfold uints.Len, y; rewrite !length_insert; reflexivity |].
  assert (uints.index y i = Ok b) as HIi by (apply uints_index_Ok; auto).
  assert (uints.index y j = Ok a) as HIj by (apply uints_index_Ok; auto).
  assert (uints.index x i = Ok a) as HXi by (apply uints_index_Ok; auto).
  assert (uints.index x j = Ok b) as HXj by (apply uints_index_Ok; auto).
  split; [congruence |]. split; [congruence |]. split.
  - intros k Hki Hkj. unfold uints.index.
    destruct (Z.ltb_spec k 0) as [Hneg | Hpos]; [reflexivity |].
    unfold y. rewrite !list_lookup_insert_ne by lia. reflexivity.
  - rewrite HIj, HIi. simpl. f_equal. apply list_eq. intros k.
    destruct (decide (Z.to_nat j = k)) as [<- | Hkj].
    + rewrite list_lookup_insert_eq; [congruence |].
      unfold y. rewrite !length_insert. exact Hlj.
    + rewrite list_lookup_insert_ne by exact Hkj.
      destruct (decide (Z.to_nat i = k)) as [<- | Hki].
      * rewrite list_lookup_insert_eq; [congruence |].
        unfold y. rewrite !length_insert. exact Hli.
      * rewrite list_lookup_insert_ne by exact Hki.
        unfold y. rewrite !list_lookup_insert_ne by assumption. reflexivity.
Qed.

(** X25: On a cache that reflects the table, [Less] tells the order of the
    indices: the cache is sorted for [sort.Interface], strictly. *)
Theorem Less_on_cache {node : Type} `{WriteCloser node} (c : Consistent node) (i j : Z) :
  cache_ok c ->
  0 <= i < uints.Len (sortedHashes c) -> 0 <= j < uints.Len (sortedHashes c) ->
  uints.Less (sortedHashes c) i j = Ok (i <? j).
Proof.
  intros [Hsorted _] Hi Hj. unfold uints.Len in *.
  destruct (lookup_lt_is_Some_2 (sortedHashes c) (Z.to_nat i)) as [p Hp]; [lia |].
  destruct (lookup_lt_is_Some_2 (sortedHashes c) (Z.to_nat j)) as [q Hq]; [lia |].
  unfold uints.Less.
  rewrite (proj2 (uints_index_Ok _ i p)) by (split; [lia | exact Hp]). simpl.
  rewrite (proj2 (uints_index_Ok _ j q)) by (split; [lia | exact Hq]). simpl.
  f_equal. destruct (Z.ltb_spec i j) as [Hlt | Hge].
  - apply Z.ltb_lt.
    apply (StronglySorted_lookup Z.lt _ (Z.to_nat i) (Z.to_nat j) p q Hsorted);
      [lia | exact Hp | exact Hq].
  - apply Z.ltb_ge. destruct (decide (i = j)) as [-> | Hne].
    + rewrite Hp in Hq. injection Hq as ->. lia.
    + apply Z.lt_le_incl.
      apply (StronglySorted_lookup Z.lt _ (Z.to_nat j) (Z.to_nat i) q p Hsorted);
        [lia | exact Hq | exact Hp].
Qed.



Section More_laws.
Context {node : Type} `{WriteCloser node}.
Implicit Types (c : Consistent node) (e : node).

(** ** The queries agree on the primary node *)

Lemma getN_walk_prefix c (n : Z) (fuel start i : nat) (res r : list (option node)) :
  getN_walk fuel c n start i res = Some (Ok r) -> res `prefix_of` r.
Proof.
  revert i res. induction fuel as [| fuel IH]; intros i res; [discriminate |].
  cbn [getN_walk]. case_bool_decide; [intros [= <-]; reflexivity |].
  destruct (nodeAt c _) as [elem | |]; [| discriminate | discriminate].
  assert (res `prefix_of` (if sliceContainsMember res elem then res else res ++ [elem]))
    as Hpre.
  { destruct (sliceContainsMember res elem); [reflexivity |].
    apply prefix_app_r. reflexivity. }
  case_bool_decide; [intros [= <-]; exact Hpre |].
  intros Hw. etrans; [exact Hpre | eapply IH; exact Hw].
Qed.

(** X16: Whenever [GetTwo] returns, its first result is what [Get] returns for
    the key: no assumption on the ring. *)
Theorem GetTwo_first_is_Get c (key : string) (fuel : nat) (a b : option node) :
  GetTwo fuel c key = Some (Ok (a, b)) -> Get c key = Ok a.
Proof.
  unfold GetTwo, Get. case_bool_decide; [discriminate |].
  destruct (nodeAt c _) as [a' | |]; [| discriminate | discriminate].
  destruct (count c =? 1); [intros [= <- _]; reflexivity |].
  destruct (getTwo_walk _ _ _ _ _ _) as [[b' | |] |]; try discriminate.
  intros [= <- _]. reflexivity.
Qed.

(** X19: Whenever [GetN] returns a list, the list starts with what [Get]
    returns for the key, even when [n] is zero: no assumption on the
    ring. *)
Theorem GetN_head_is_Get c (key : string) (n : Z) (fuel : nat)
    (r : list (option node)) :
  GetN fuel c key n = Some (Ok r) ->
  exists a, Get c key = Ok a /\ head r = Some a.
Proof.
  unfold GetN, Get. case_bool_decide; [discriminate |].
  destruct (_ <? 0); [discriminate |].
  destruct (nodeAt c _) as [a | |]; [| discriminate | discriminate].
  intros Hw. exists a. split; [reflexivity |].
  revert Hw. case_bool_decide; [intros [= <-]; reflexivity |].
  intros Hw. apply getN_walk_prefix in Hw as [k ->]. reflexivity.
Qed.

(** ** Minimal disruption on [Add] *)

(** X4: Adding a node moves a key only to the added node: for every key, [Get]
    answers as before the [Add] or with the added node. *)
Theorem Add_remaps_only_to_added c e c' (key : string) :
  cache_ok c -> Add c e = Ok c' ->
  Get c' key = Get c key \/ Get c' key = Ok (Some e).
Proof.
  intros Hok Hadd.
  pose proof (add_cache_ok _ _ _ Hadd) as Hok'.
  apply add_Ok in Hadd as (Hcirc & _).
  assert (forall q, is_Some (circle c !! q) -> is_Some (circle c' !! q)) as Hsub.
  { intros q Hq. rewrite Hcirc, lookup_place. case_decide; [eauto | exact Hq]. }
  destruct (decide (circle c' = ∅)) as [Hempty' | Hne'].
  - left. assert (circle c = ∅) as Hempty.
    { apply map_eq. intros q. rewrite lookup_empty.
      destruct (circle c !! q) as [x |] eqn:Hq; [| reflexivity].
      destruct (Hsub q) as [y Hy]; [eauto |].
      rewrite Hempty', lookup_empty in Hy. discriminate. }
    destruct (queries_on_empty c key 0 0 Hempty) as [-> _].
    destruct (queries_on_empty c' key 0 0 Hempty') as [-> _]. reflexivity.
  - destruct (Get_serves c' key Hok' Hne') as (p & Hserves & ->).
    pose proof Hserves as [Hp _]. revert Hp.
    rewrite Hcirc, lookup_place. case_decide as Hin; [right; reflexivity |].
    intros Hp. left. symmetry. apply Get_of_serves; [exact Hok |].
    apply (serves_subset (circle c')); [exact Hsub | exact Hp | exact Hserves].
Qed.

(** ** [Set] and the queries *)

(** X13: After [Set elts] on a ring whose entries all belong to members, [Get]
    only returns handles of [elts]; with an empty list the ring is empty
    and [Get] fails. *)
Theorem Set_then_Get c (elts : list node) c' (key : string) :
  owners_ok c -> Set_ c elts = Ok c' ->
  (forall x, Get c' key = Ok (Some x) -> x ∈ elts)
  /\ (elts = [] -> Get c' key = Err ErrEmptyCircle).
Proof.
  intros Hown Hset.
  assert (owners_ok c') as Hown'.
  { apply (Set_preserves owners_ok c elts c');
      [apply add_owners_ok | apply remove_owners_ok | exact Hown | exact Hset]. }
  pose proof (Set_members c elts c' Hset) as Hmem.
  split.
  - intros x. unfold Get, nodeAt. case_bool_decide; [discriminate |].
    destruct (sortedHashes c' !! _) as [p |]; [| discriminate].
    intros [= Hp]. apply Hmem. apply (Hown' p x Hp).
  - intros ->. apply queries_on_empty with (n := 0) (fuel := 0%nat).
    apply map_eq. intros p. rewrite lookup_empty.
    destruct (circle c' !! p) as [x |] eqn:Hp; [| reflexivity].
    destruct (Hown' p x Hp) as [Hx _]. apply Hmem in Hx. inversion Hx.
Qed.

(** ** Replica counts that place nothing *)

(** X8: With a negative [NumberOfReplicas] the loops of [add] and [remove] do
    not run: [Add] registers the handle and counts it, yet gives it no
    position, so the queries of a ring built this way keep failing with
    [ErrEmptyCircle]; [Remove] takes no position away. *)
Theorem negative_replicas_place_nothing c e :
  NumberOfReplicas c < 0 ->
  (forall c', Add c e = Ok c' ->
     circle c' = circle c /\ e ∈ members c' /\ count c' = wrap64 (count c + 1))
  /\ (forall c', Remove c e = Ok c' -> circle c' = circle c).
Proof.
  intros Hneg.
  assert (replicas c = []) as Hnil by (apply seqZ_nil; lia).
  split.
  - intros c' (Hc & Hm & _ & _ & Hn)%add_Ok. rewrite Hnil in Hc.
    split; [exact Hc |]. split; [| exact Hn].
    rewrite Hm. apply elem_of_union_l, elem_of_singleton. reflexivity.
  - intros c' (Hc & _)%remove_Ok. rewrite Hnil in Hc. exact Hc.
Qed.

(** ** Every ring a caller can build *)

(** X21: On every ring built from a new one by [Add], [Remove] and [Set], with
    any replica count, a successful [Get] returns a handle that is a member
    at that moment: never [nil], never a handle that was removed. *)
Theorem reachable_Get_member (r : Z) (ops : list (op node)) c (key : string)
    (o : option node) :
  run (withReplicas r New) ops = Ok c ->
  Get c key = Ok o -> exists x, o = Some x /\ x ∈ members c.
Proof.
  intros Hrun HGet.
  pose proof (run_cache_ok r ops c Hrun) as Hok.
  pose proof (run_owners_ok r ops c Hrun) as Hown.
  destruct (decide (circle c = ∅)) as [Hempty | Hne].
  - destruct (queries_on_empty c key 0 0 Hempty) as [HG _]. congruence.
  - destruct (Get_serves c key Hok Hne) as (p & [[x Hx] _] & HGet').
    rewrite HGet' in HGet. injection HGet as <-.
    exists x. split; [exact Hx | apply (Hown p x Hx)].
Qed.

End More_laws.


Section Rebuild_laws.
Context {node : Type} `{WriteCloser node}.
Implicit Types (c : Consistent node).


End Rebuild_laws.


(** * The claims on concrete rings

    The rings below are built on the example nodes with the default replica
    count; every fact about them is obtained by evaluating the functions. *)

Lemma ring_nonempty (c : Consistent conn) : size (circle c) <> 0%nat -> circle c <> ∅.
Proof. intros Hsize. apply map_size_non_empty_iff. exact Hsize. Qed.

Lemma Get_first_above_witness :
  exists p x, serves (circle ringAB) (hashKey "0cacheA") p
    /\ circle ringAB !! p = Some x
    /\ Get ringAB "0cacheA" = Ok (Some x).
Proof.
  apply Get_first_above.
  - apply ring_of_cache_ok.
  - apply ring_nonempty. vm_compute. discriminate.
Defined.

(** C1 (counterexample): with [cacheA] and [cacheB] on a default ring, the
    key ["0cacheA"] hashes exactly onto the position of replica 0 of
    [cacheA], which is therefore the first position greater than or equal to
    the hash; [Get] returns [cacheB], the owner of the next position. *)
Lemma Get_not_first_at_or_above :
  run New [OpAdd cacheA; OpAdd cacheB] = Ok ringAB
  /\ cache_ok ringAB /\ circle ringAB <> ∅
  /\ serves_ge (circle ringAB) (hashKey "0cacheA") (position cacheA 0)
  /\ circle ringAB !! position cacheA 0 = Some cacheA
  /\ Get ringAB "0cacheA" = Ok (Some cacheB)
  /\ ~ (forall p, serves_ge (circle ringAB) (hashKey "0cacheA") p ->
         Get ringAB "0cacheA" = Ok (circle ringAB !! p)).
Proof.
  assert (circle ringAB !! position cacheA 0 = Some cacheA) as HL
    by (vm_compute; reflexivity).
  assert (Get ringAB "0cacheA" = Ok (Some cacheB)) as HG
    by (vm_compute; reflexivity).
  assert (serves_ge (circle ringAB) (hashKey "0cacheA") (position cacheA 0)) as HS.
  { split; [rewrite HL; eauto |].
    left. change (position cacheA 0) with (hashKey "0cacheA").
    split; [lia | intros; assumption]. }
  split; [apply ring_of_run |].
  split; [apply ring_of_cache_ok |].
  split; [apply ring_nonempty; vm_compute; discriminate |].
  do 3 (split; [assumption |]).
  intros Hclaim. specialize (Hclaim _ HS).
  rewrite HL, HG in Hclaim. discriminate.
Qed.

Lemma cache_reflects_table_witness :
  exists c : Consistent conn,
    run (withReplicas 20 New) [OpAdd cacheA; OpSet [cacheB; cacheC]; OpRemove cacheB] = Ok c
    /\ StronglySorted Z.lt (sortedHashes c)
    /\ NoDup (sortedHashes c)
    /\ forall p, p ∈ sortedHashes c <-> is_Some (circle c !! p).
Proof.
  destruct (cache_reflects_table (node := conn) 20
              [OpAdd cacheA; OpSet [cacheB; cacheC]; OpRemove cacheB]) as [Htotal Hcache].
  destruct Htotal as [c Hc]; [vm_compute; discriminate |].
  exists c. split; [exact Hc |]. apply Hcache. exact Hc.
Defined.

Lemma queries_fail_iff_empty_witness :
  exists x, Get ringAB "user:42" = Ok (Some x) /\ x ∈ members ringAB.
Proof.
  destruct (queries_fail_iff_empty (node := conn)) as (_ & _ & _ & Hget).
  apply (Hget 20 [OpAdd cacheA; OpAdd cacheB]).
  - apply ring_of_run.
  - apply ring_nonempty. vm_compute. discriminate.
Defined.

Lemma Remove_absent_unchanged_witness :
  circle ringAB_less_C = circle ringAB
  /\ members ringAB_less_C = members ringAB
  /\ sortedHashes ringAB_less_C = sortedHashes ringAB
  /\ NumberOfReplicas ringAB_less_C = NumberOfReplicas ringAB
  /\ forall key, Get ringAB_less_C key = Get ringAB key.
Proof.
  apply (Remove_absent_unchanged ringAB cacheC ringAB_less_C).
  - apply ring_of_cache_ok.
  - apply (bool_decide_unpack _). vm_compute. exact I.
  - apply Forall_forall. apply (bool_decide_unpack _). vm_compute. exact I.
  - exact (ring_of_Remove [OpAdd cacheA; OpAdd cacheB] cacheC).
Defined.

(** C3 (counterexample): a handle that is not a member but reports the name
    of a member shares its replica positions, so removing it empties the
    position table of a one-node ring and [Get] then fails; and removing a
    handle that shares nothing with the ring still lowers [count], here from
    2 to 1, after which [GetTwo] stops returning a second node. *)
Lemma Remove_absent_changes_ring :
  ((cacheA' ∉ members ringA)
   /\ Remove ringA cacheA' = Ok ringA_less_twin
   /\ circle ringA <> circle ringA_less_twin
   /\ Get ringA "user:42" = Ok (Some cacheA)
   /\ Get ringA_less_twin "user:42" = Err ErrEmptyCircle)
  /\ ((cacheC ∉ members ringAB)
      /\ Remove ringAB cacheC = Ok ringAB_less_C
      /\ count ringAB = 2 /\ count ringAB_less_C = 1
      /\ GetTwo 100 ringAB "user:42" = Some (Ok (Some cacheB, Some cacheA))
      /\ GetTwo 100 ringAB_less_C "user:42" = Some (Ok (Some cacheB, None))).
Proof.
  split.
  - split; [apply (bool_decide_unpack _); vm_compute; exact I |].
    split; [exact (ring_of_Remove [OpAdd cacheA] cacheA') |].
    split; [| split; vm_compute; reflexivity].
    intros Heq.
    apply (f_equal (fun m => m !! position cacheA 0)) in Heq.
    vm_compute in Heq. discriminate.
  - split; [apply (bool_decide_unpack _); vm_compute; exact I |].
    split; [exact (ring_of_Remove [OpAdd cacheA; OpAdd cacheB] cacheC) |].
    repeat (split; [vm_compute; reflexivity |]). vm_compute. reflexivity.
Qed.

Lemma Remove_remaps_only_removed_witness :
  Get ringABC_less_B "a" = Ok (Some cacheA)
  /\ cacheA ∈ members ringABC_less_B /\ cacheB ∉ members ringABC_less_B.
Proof.
  apply (Remove_remaps_only_removed ringABC cacheA cacheB ringABC_less_B "a").
  - apply ring_of_cache_ok.
  - apply ring_of_owners_ok.
  - apply collision_free_check. apply (bool_decide_unpack _). vm_compute. exact I.
  - apply (bool_decide_unpack _). vm_compute. exact I.
  - vm_compute. reflexivity.
  - discriminate.
  - exact (ring_of_Remove [OpAdd cacheA; OpAdd cacheB; OpAdd cacheC] cacheB).
Defined.

(** C2 (the code at the failing input): adding the same handle twice leaves
    one member and a [count] of 2; [GetTwo] then returns that node twice. *)
Theorem Add_twice_count :
  run New [OpAdd cacheA; OpAdd cacheA] = Ok ringAA
  /\ count ringAA = 2
  /\ size (members ringAA) = 1%nat
  /\ GetTwo 100 ringAA "user:42" = Some (Ok (Some cacheA, Some cacheA)).
Proof.
  split; [apply ring_of_run |].
  repeat (split; [vm_compute; reflexivity |]). vm_compute. reflexivity.
Qed.



(** C5 (the code at the failing input): on the ring of [cacheA] and
    [cacheB], [GetN key 0] returns both nodes for the key ["user:42"], and
    for the key ["g"], which [search] sends to index 0 of the cache, it
    never returns; a negative [n] panics in [make]. *)
Theorem GetN_zero :
  GetN 100 ringAB "user:42" 0 = Some (Ok [Some cacheB; Some cacheA])
  /\ search ringAB (hashKey "g") = 0%nat
  /\ (forall fuel, GetN fuel ringAB "g" 0 = None)
  /\ (forall fuel, GetN fuel ringAB "user:42" (-1) = Some Panic).
Proof.
  split; [vm_compute; reflexivity |].
  assert (search ringAB (hashKey "g") = 0%nat) as Hstart by (vm_compute; reflexivity).
  split; [exact Hstart |]. split.
  - apply GetN_zero_diverges.
    + apply ring_of_cache_ok.
    + apply ring_nonempty. vm_compute. discriminate.
    + vm_compute. discriminate.
    + exact Hstart.
  - intros fuel. unfold GetN.
    rewrite bool_decide_eq_false_2 by (vm_compute; discriminate).
    assert (count ringAB = 2) as -> by (vm_compute; reflexivity).
    reflexivity.
Qed.

(** * The further properties on concrete rings *)

Lemma Add_Remove_roundtrip_witness :
  ring_of (([OpAdd cacheA; OpAdd cacheB] ++ [OpAdd cacheC]) ++ [OpRemove cacheC]) = ringAB.
Proof.
  apply (Add_Remove_roundtrip ringAB cacheC
           (ring_of ([OpAdd cacheA; OpAdd cacheB] ++ [OpAdd cacheC]))).
  - apply ring_of_cache_ok.
  - apply (bool_decide_unpack _). vm_compute. exact I.
  - apply Forall_forall. apply (bool_decide_unpack _). vm_compute. exact I.
  - apply (bool_decide_unpack _). vm_compute. exact I.
  - exact (ring_of_Add [OpAdd cacheA; OpAdd cacheB] cacheC).
  - exact (ring_of_Remove ([OpAdd cacheA; OpAdd cacheB] ++ [OpAdd cacheC]) cacheC).
Defined.

Lemma Add_member_only_count_witness :
  circle (ring_of ([OpAdd cacheA] ++ [OpAdd cacheA])) = circle ringA
  /\ members (ring_of ([OpAdd cacheA] ++ [OpAdd cacheA])) = members ringA
  /\ sortedHashes (ring_of ([OpAdd cacheA] ++ [OpAdd cacheA])) = sortedHashes ringA
  /\ count (ring_of ([OpAdd cacheA] ++ [OpAdd cacheA])) = wrap64 (count ringA + 1).
Proof.
  apply (Add_member_only_count ringA cacheA).
  - apply ring_of_cache_ok.
  - apply (bool_decide_unpack _). vm_compute. exact I.
  - apply Forall_forall. apply (bool_decide_unpack _). vm_compute. exact I.
  - exact (ring_of_Add [OpAdd cacheA] cacheA).
Defined.

Lemma Add_then_Get_succeeds_witness :
  cacheA ∈ members (ring_of ([] ++ [OpAdd cacheA]))
  /\ circle (ring_of ([] ++ [OpAdd cacheA])) <> ∅
  /\ exists x, Get (ring_of ([] ++ [OpAdd cacheA])) "user:42" = Ok (Some x)
       /\ (owners_ok (ring_of [] : Consistent conn) ->
           x ∈ members (ring_of ([] ++ [OpAdd cacheA]))).
Proof.
  apply (Add_then_Get_succeeds (ring_of []) cacheA).
  - vm_compute. reflexivity.
  - exact (ring_of_Add [] cacheA).
Defined.

Lemma Remove_last_member_empties_witness :
  circle (ring_of ([OpAdd cacheA] ++ [OpRemove cacheA])) = ∅
  /\ members (ring_of ([OpAdd cacheA] ++ [OpRemove cacheA])) = ∅
  /\ sortedHashes (ring_of ([OpAdd cacheA] ++ [OpRemove cacheA])) = []
  /\ Get (ring_of ([OpAdd cacheA] ++ [OpRemove cacheA])) "user:42" = Err ErrEmptyCircle
  /\ GetTwo 0 (ring_of ([OpAdd cacheA] ++ [OpRemove cacheA])) "user:42"
     = Some (Err ErrEmptyCircle)
  /\ GetN 0 (ring_of ([OpAdd cacheA] ++ [OpRemove cacheA])) "user:42" 1
     = Some (Err ErrEmptyCircle).
Proof.
  apply (Remove_last_member_empties ringA cacheA).
  - apply ring_of_owners_ok.
  - vm_compute. reflexivity.
  - exact (ring_of_Remove [OpAdd cacheA] cacheA).
Defined.

Lemma Removed_not_returned_witness :
  (cacheB ∉ members (ring_of ([OpAdd cacheA; OpAdd cacheB] ++ [OpRemove cacheB])))
  /\ Get (ring_of ([OpAdd cacheA; OpAdd cacheB] ++ [OpRemove cacheB])) "user:42"
     <> Ok (Some cacheB).
Proof.
  apply (Removed_not_returned ringAB cacheB).
  - apply ring_of_owners_ok.
  - exact (ring_of_Remove [OpAdd cacheA; OpAdd cacheB] cacheB).
Defined.


Lemma Set_idempotent_witness :
  Set_ (ring_of ([OpAdd cacheA; OpAdd cacheB] ++ [OpSet [cacheB; cacheC]])) [cacheB; cacheC]
  = Ok (ring_of ([OpAdd cacheA; OpAdd cacheB] ++ [OpSet [cacheB; cacheC]])).
Proof.
  apply (Set_idempotent ringAB).
  exact (ring_of_Set [OpAdd cacheA; OpAdd cacheB] [cacheB; cacheC]).
Defined.

Lemma Members_after_Set_witness :
  Members (ring_of ([OpAdd cacheA; OpAdd cacheB] ++ [OpSet [cacheB; cacheC; cacheB]]))
  ≡ₚ remove_dups [cacheB; cacheC; cacheB].
Proof.
  exact (Members_after_Set ringAB [cacheB; cacheC; cacheB]
           (ring_of ([OpAdd cacheA; OpAdd cacheB] ++ [OpSet [cacheB; cacheC; cacheB]]))
           (ring_of_Set [OpAdd cacheA; OpAdd cacheB] [cacheB; cacheC; cacheB])).
Defined.

Lemma Set_keeps_count_witness :
  count_ok (ring_of ([OpAdd cacheA; OpAdd cacheB] ++ [OpSet [cacheB; cacheC; cacheB]]))
  /\ count (ring_of ([OpAdd cacheA; OpAdd cacheB] ++ [OpSet [cacheB; cacheC; cacheB]]))
     = Z.of_nat (length (remove_dups [cacheB; cacheC; cacheB])).
Proof.
  assert (count_ok ringAB) as Hcount by (vm_compute; reflexivity).
  assert (Z.of_nat (size (members ringAB)) + Z.of_nat (length [cacheB; cacheC; cacheB])
          < 2 ^ 63) as Hbound
    by (apply (bool_decide_unpack _); vm_compute; exact I).
  exact (Set_keeps_count ringAB [cacheB; cacheC; cacheB]
           (ring_of ([OpAdd cacheA; OpAdd cacheB] ++ [OpSet [cacheB; cacheC; cacheB]]))
           Hcount Hbound
           (ring_of_Set [OpAdd cacheA; OpAdd cacheB] [cacheB; cacheC; cacheB])).
Defined.

Lemma Set_remove_loop_order_witness :
  Set_remove_loop [cacheB] [cacheA; cacheB] ringAB
  = Set_remove_loop [cacheB] [cacheB; cacheA] ringAB.
Proof.
  apply Set_remove_loop_order. apply perm_swap.
Defined.

Lemma queries_panic_iff_witness :
  Get (ring_of [OpAdd cacheA; OpRemove cacheC; OpRemove cacheC]) "user:42" <> Panic
  /\ GetTwo 0 (ring_of [OpAdd cacheA; OpRemove cacheC; OpRemove cacheC]) "user:42"
     <> Some Panic
  /\ (GetN 0 (ring_of [OpAdd cacheA; OpRemove cacheC; OpRemove cacheC]) "user:42" 1
      = Some Panic
      <-> circle (ring_of [OpAdd cacheA; OpRemove cacheC; OpRemove cacheC]) <> ∅
          /\ (1 < 0 \/ count (ring_of [OpAdd cacheA; OpRemove cacheC; OpRemove cacheC]) < 0)).
Proof.
  apply (queries_panic_iff (ring_of [OpAdd cacheA; OpRemove cacheC; OpRemove cacheC])).
  apply ring_of_cache_ok.
Defined.

Lemma GetN_spec_witness :
  exists x r fuel0,
    Get ringABC "user:42" = Ok (Some x) /\ head r = Some (Some x) /\ NoDup r
    /\ Z.of_nat (length r) = Z.min 2 (Z.of_nat (size (members ringABC)))
    /\ (forall o, o ∈ r -> exists y, o = Some y /\ y ∈ members ringABC)
    /\ forall fuel, (fuel0 <= fuel)%nat -> GetN fuel ringABC "user:42" 2 = Some (Ok r).
Proof.
  apply (GetN_spec ringABC "user:42" 2).
  - apply ring_of_cache_ok.
  - apply ring_of_owners_ok.
  - apply members_placed_check. apply (bool_decide_unpack _). vm_compute. exact I.
  - vm_compute. reflexivity.
  - apply ring_nonempty. vm_compute. discriminate.
  - lia.
Defined.

Lemma GetTwo_nearest_witness :
  let start := search ringAB (hashKey "user:42") in
  exists (y : conn) (j fuel0 : nat),
    y <> cacheB /\ j <> start /\ nodeAt ringAB j = Ok (Some y)
    /\ (forall k, (start < k < j
                   \/ (j < start /\ (start < k < length (sortedHashes ringAB) \/ k < j)))%nat ->
                  nodeAt ringAB k = Ok (Some cacheB))
    /\ forall fuel, (fuel0 <= fuel)%nat ->
         GetTwo fuel ringAB "user:42" = Some (Ok (Some cacheB, Some y)).
Proof.
  apply (GetTwo_nearest ringAB "user:42" cacheB).
  - apply ring_of_cache_ok.
  - apply ring_nonempty. vm_compute. discriminate.
  - vm_compute. discriminate.
  - vm_compute. reflexivity.
  - exists (position cacheA 0), cacheA. split; [vm_compute; reflexivity | discriminate].
Defined.

Lemma GetTwo_single_owner_witness :
  (search ringAA (hashKey "g") = 0%nat -> forall fuel, GetTwo fuel ringAA "g" = None)
  /\ (search ringAA (hashKey "g") <> 0%nat ->
      exists fuel0, forall fuel, (fuel0 <= fuel)%nat ->
        GetTwo fuel ringAA "g" = Some (Ok (Some cacheA, Some cacheA))).
Proof.
  apply (GetTwo_single_owner ringAA "g" cacheA).
  - apply ring_of_cache_ok.
  - apply ring_nonempty. vm_compute. discriminate.
  - vm_compute. discriminate.
  - change (map_Forall (fun (_ : Z) (y : conn) => y = cacheA) (circle ringAA)).
    apply (bool_decide_unpack _). vm_compute. exact I.
Defined.

Lemma elementKey_index_inj_witness : elementKey cacheA 1 <> elementKey cacheA 10.
Proof. apply (elementKey_index_inj cacheA 1 10). lia. Defined.

Lemma Swap_exchanges_witness :
  [30; 20; 10] ≡ₚ [10; 20; 30] /\ uints.Len [30; 20; 10] = uints.Len [10; 20; 30]
  /\ uints.index [30; 20; 10] 0 = uints.index [10; 20; 30] 2
  /\ uints.index [30; 20; 10] 2 = uints.index [10; 20; 30] 0
  /\ (forall k, k <> 0 -> k <> 2 -> uints.index [30; 20; 10] k = uints.index [10; 20; 30] k)
  /\ uints.Swap [30; 20; 10] 0 2 = Ok [10; 20; 30].
Proof.
  apply (proj2 (Swap_exchanges [10; 20; 30] 0 2)). reflexivity.
Defined.

Lemma Less_on_cache_witness : uints.Less (sortedHashes ringAB) 0 1 = Ok (0 <? 1).
Proof.
  apply Less_on_cache.
  - apply ring_of_cache_ok.
  - apply (bool_decide_unpack _). vm_compute. exact I.
  - apply (bool_decide_unpack _). vm_compute. exact I.
Defined.

Lemma GetTwo_first_is_Get_witness : Get ringAB "user:42" = Ok (Some cacheB).
Proof.
  apply (GetTwo_first_is_Get ringAB "user:42" 100 (Some cacheB) (Some cacheA)).
  vm_compute. reflexivity.
Defined.

Lemma GetN_head_is_Get_witness :
  exists a, Get ringAB "user:42" = Ok a /\ head [Some cacheB; Some cacheA] = Some a.
Proof.
  apply (GetN_head_is_Get ringAB "user:42" 0 100). vm_compute. reflexivity.
Defined.

Lemma Add_remaps_only_to_added_witness :
  Get (ring_of ([OpAdd cacheA; OpAdd cacheB] ++ [OpAdd cacheC])) "user:42"
  = Get ringAB "user:42"
  \/ Get (ring_of ([OpAdd cacheA; OpAdd cacheB] ++ [OpAdd cacheC])) "user:42"
     = Ok (Some cacheC).
Proof.
  apply (Add_remaps_only_to_added ringAB cacheC).
  - apply ring_of_cache_ok.
  - exact (ring_of_Add [OpAdd cacheA; OpAdd cacheB] cacheC).
Defined.

Lemma Set_then_Get_witness :
  (forall x, Get (ring_of ([OpAdd cacheA; OpAdd cacheB] ++ [OpSet [cacheB; cacheC]])) "user:42"
             = Ok (Some x) -> x ∈ [cacheB; cacheC])
  /\ ([cacheB; cacheC] = [] ->
      Get (ring_of ([OpAdd cacheA; OpAdd cacheB] ++ [OpSet [cacheB; cacheC]])) "user:42"
      = Err ErrEmptyCircle).
Proof.
  apply (Set_then_Get ringAB).
  - apply ring_of_owners_ok.
  - exact (ring_of_Set [OpAdd cacheA; OpAdd cacheB] [cacheB; cacheC]).
Defined.

Lemma negative_replicas_place_nothing_witness :
  (forall c', Add (withReplicas (-1) New) cacheA = Ok c' ->
     circle c' = circle (withReplicas (-1) New : Consistent conn)
     /\ cacheA ∈ members c'
     /\ count c' = wrap64 (count (withReplicas (-1) New : Consistent conn) + 1))
  /\ (forall c', Remove (withReplicas (-1) New) cacheA = Ok c' ->
        circle c' = circle (withReplicas (-1) New : Consistent conn)).
Proof.
  apply (negative_replicas_place_nothing (withReplicas (-1) New) cacheA). reflexivity.
Defined.

Lemma reachable_Get_member_witness :
  exists x, Some cacheB = Some x /\ x ∈ members ringAB.
Proof.
  apply (reachable_Get_member 20 [OpAdd cacheA; OpAdd cacheB] ringAB "user:42").
  - apply ring_of_run.
  - vm_compute. reflexivity.
Defined.

